(** * Common Voice 17.0 loader: the metadata/audio join of
      [CommonVoice._generate_examples]

    Shallow embedding of the generator in
    [example-common_voice_17_0.py].  The transcript is taken as the list of
    rows that [csv.DictReader] produces (one dict from column name to
    string per line), an archive as the list of [(path, bytes)] pairs that
    [dl_manager.iter_archive] yields, and [local_extracted_archive_paths]
    as [None] (streaming) or a list of directories, one per archive.

    A Python generator is modelled by the list of pairs it yields followed
    by the exception that stops it, if any. *)

From Stdlib Require Import Strings.String Strings.Ascii Init.Byte ZArith
  Numbers.DecimalString Numbers.DecimalNat.
From stdpp Require Import base gmap strings list.

Open Scope string_scope.

(** ** Python string helpers *)

(** [str.endswith], comparing the reversed character lists. *)
Fixpoint ascii_prefixb (pre l : list ascii) : bool :=
  match pre, l with
  | [], _ => true
  | c :: pre', d :: l' => if ascii_dec c d then ascii_prefixb pre' l' else false
  | _ :: _, [] => false
  end.

Definition str_endswith (s suffix : string) : bool :=
  ascii_prefixb (rev (list_ascii_of_string suffix)) (rev (list_ascii_of_string s)).

Definition str_startswith (s prefix : string) : bool :=
  ascii_prefixb (list_ascii_of_string prefix) (list_ascii_of_string s).

(** [os.path.split(p)[1]] (posixpath): the part after the last ['/']. *)
Fixpoint path_tail_acc (p acc : string) : string :=
  match p with
  | EmptyString => acc
  | String c p' =>
      if ascii_dec c "/" then path_tail_acc p' ""
      else path_tail_acc p' (acc ++ String c "")
  end.

Definition os_path_split_tail (p : string) : string := path_tail_acc p "".

(** [os.path.join(a, b)] (posixpath, two arguments). *)
Definition os_path_join (a b : string) : string :=
  if str_startswith b "/" then b
  else if String.eqb a "" || str_endswith a "/" then a ++ b
  else a ++ "/" ++ b.

(** ** Data *)

(** A transcript row as [csv.DictReader] yields it. *)
Abbreviation row := (gmap string string).

(** A value of an output record: a string copied from the row, or the
    [{"path": ..., "bytes": ...}] dict stored under ["audio"]. *)
Inductive value :=
  | VStr (s : string)
  | VAudio (audio_path : string) (audio_bytes : list byte).

Abbreviation record := (gmap string value).

Inductive error :=
  | KeyError (k : string)
  | IndexError.

Inductive result (A : Type) :=
  | Ok (a : A)
  | Err (e : error).
Arguments Ok {A} a.
Arguments Err {A} e.

(** The generator's run: what it yielded, then the exception that ended
    it ([None] when it was exhausted normally). *)
Record trace := mk_trace {
  yielded : list (string * record);
  raised : option error
}.

(** [list(self._info().features.keys())] *)
Definition data_fields : list string :=
  ["client_id"; "path"; "audio"; "sentence"; "up_votes"; "down_votes";
   "age"; "gender"; "accent"; "locale"; "segment"; "variant"].

(** ** Reading the metadata (lines 176-187) *)

(** [if not row["path"].endswith(".mp3"): row["path"] += ".mp3"] *)
Definition fix_extension (r : row) : result row :=
  match r !! "path" with
  | None => Err (KeyError "path")
  | Some p =>
      if str_endswith p ".mp3" then Ok r else Ok (<["path" := p ++ ".mp3"]> r)
  end.

(** [if "accents" in row: row["accent"] = row["accents"]; del row["accents"]] *)
Definition migrate_accents (r : row) : row :=
  match r !! "accents" with
  | Some a => delete "accents" (<["accent" := a]> r)
  | None => r
  end.

(** [for field in data_fields: if field not in row: row[field] = ""] *)
Definition fill_missing (r : row) : row :=
  foldl (fun r f => match r !! f with
                    | Some _ => r
                    | None => <[f := ""]> r
                    end) r data_fields.

Definition process_row (r : row) : result row :=
  match fix_extension r with
  | Err e => Err e
  | Ok r1 => Ok (fill_missing (migrate_accents r1))
  end.

(** [metadata[row["path"]] = row] for each row in turn. *)
Fixpoint build_metadata_from (md : gmap string row) (rows : list row)
    : result (gmap string row) :=
  match rows with
  | [] => Ok md
  | r :: rs =>
      match process_row r with
      | Err e => Err e
      | Ok r' =>
          match r' !! "path" with
          | None => Err (KeyError "path")
          | Some k => build_metadata_from (<[k := r']> md) rs
          end
      end
  end.

Definition build_metadata (rows : list row) : result (gmap string row) :=
  build_metadata_from ∅ rows.

(** ** Joining with the archives (lines 189-198) *)

(** [os.path.join(local_extracted_archive_paths[i], path)
       if local_extracted_archive_paths else path] *)
Definition resolve_path (local_extracted_archive_paths : option (list string))
    (i : nat) (p : string) : result string :=
  match local_extracted_archive_paths with
  | Some ((_ :: _) as l) =>
      match l !! i with
      | Some d => Ok (os_path_join d p)
      | None => Err IndexError
      end
  | _ => Ok p
  end.

(** [result = dict(metadata[filename]); result["audio"] = {...};
     result["path"] = path] *)
Definition make_record (r : row) (p : string) (content : list byte) : record :=
  <["path" := VStr p]> (<["audio" := VAudio p content]> (VStr <$> r)).

Fixpoint gen_entries (md : gmap string row)
    (local_extracted_archive_paths : option (list string)) (i : nat)
    (entries : list (string * list byte)) : trace :=
  match entries with
  | [] => mk_trace [] None
  | (p, content) :: rest =>
      let filename := os_path_split_tail p in
      match md !! filename with
      | None => gen_entries md local_extracted_archive_paths i rest
      | Some r =>
          match resolve_path local_extracted_archive_paths i p with
          | Err e => mk_trace [] (Some e)
          | Ok p' =>
              let t := gen_entries md local_extracted_archive_paths i rest in
              mk_trace ((p', make_record r p' content) :: yielded t) (raised t)
          end
      end
  end.

(** [for i, audio_archive in enumerate(archives): ...] *)
Fixpoint gen_archives (md : gmap string row)
    (local_extracted_archive_paths : option (list string)) (i : nat)
    (archives : list (list (string * list byte))) : trace :=
  match archives with
  | [] => mk_trace [] None
  | a :: rest =>
      let t := gen_entries md local_extracted_archive_paths i a in
      match raised t with
      | Some e => t
      | None =>
          let t' := gen_archives md local_extracted_archive_paths (S i) rest in
          mk_trace (yielded t ++ yielded t') (raised t')
      end
  end.

Definition generate_examples
    (local_extracted_archive_paths : option (list string))
    (archives : list (list (string * list byte))) (rows : list row) : trace :=
  match build_metadata rows with
  | Err e => mk_trace [] (Some e)
  | Ok md => gen_archives md local_extracted_archive_paths 0 archives
  end.

(** The key a row is filed under: its [path] with [".mp3"] appended when
    missing (what lines 177-178 compute). *)
Definition mp3_path (p : string) : string :=
  if str_endswith p ".mp3" then p else p ++ ".mp3".

(** Python truthiness of [local_extracted_archive_paths]. *)
Definition py_truthy (l : option (list string)) : bool :=
  match l with
  | Some (_ :: _) => true
  | _ => false
  end.

(** ** One run of the generator as a big-step relation

    The loops of [build_metadata_from], [gen_entries], [gen_archives] and
    [generate_examples] once more, as rules relating the inputs of a run to
    its outcome. *)
Module Run.

Inductive BuildMeta : gmap string row -> list row -> result (gmap string row) -> Prop :=
  | bm_done md : BuildMeta md [] (Ok md)
  | bm_fail md r rs e :
      process_row r = Err e -> BuildMeta md (r :: rs) (Err e)
  | bm_nokey md r rs r' :
      process_row r = Ok r' -> r' !! "path" = None ->
      BuildMeta md (r :: rs) (Err (KeyError "path"))
  | bm_store md r rs r' k res :
      process_row r = Ok r' -> r' !! "path" = Some k ->
      BuildMeta (<[k := r']> md) rs res -> BuildMeta md (r :: rs) res.

Section Loops.
Variable md : gmap string row.
Variable local_extracted_archive_paths : option (list string).

Inductive Entries (i : nat) : list (string * list byte) -> trace -> Prop :=
  | en_done : Entries i [] (mk_trace [] None)
  | en_skip p c es t :
      md !! os_path_split_tail p = None ->
      Entries i es t -> Entries i ((p, c) :: es) t
  | en_raise p c es r e :
      md !! os_path_split_tail p = Some r ->
      resolve_path local_extracted_archive_paths i p = Err e ->
      Entries i ((p, c) :: es) (mk_trace [] (Some e))
  | en_yield p c es r p' t :
      md !! os_path_split_tail p = Some r ->
      resolve_path local_extracted_archive_paths i p = Ok p' ->
      Entries i es t ->
      Entries i ((p, c) :: es)
        (mk_trace ((p', make_record r p' c) :: yielded t) (raised t)).

Inductive Archives : nat -> list (list (string * list byte)) -> trace -> Prop :=
  | ar_done i : Archives i [] (mk_trace [] None)
  | ar_raise i a rest t e :
      Entries i a t -> raised t = Some e -> Archives i (a :: rest) t
  | ar_next i a rest t t' :
      Entries i a t -> raised t = None -> Archives (S i) rest t' ->
      Archives i (a :: rest) (mk_trace (yielded t ++ yielded t') (raised t')).

End Loops.

Inductive Generate (local_extracted_archive_paths : option (list string))
    (archives : list (list (string * list byte))) (rows : list row) : trace -> Prop :=
  | gen_meta_err e :
      BuildMeta ∅ rows (Err e) ->
      Generate local_extracted_archive_paths archives rows (mk_trace [] (Some e))
  | gen_join md t :
      BuildMeta ∅ rows (Ok md) ->
      Archives md local_extracted_archive_paths 0 archives t ->
      Generate local_extracted_archive_paths archives rows t.

End Run.

(** ** Planning the splits: [_split_generators] (lines 133-169) *)

(** [str(i)] for a shard index. *)
Definition py_str_nat (n : nat) : string := NilEmpty.string_of_uint (Nat.to_uint n).

Definition _BASE_URL : string :=
  "https://huggingface.co/datasets/mozilla-foundation/common_voice_17_0/resolve/main/".

(** [_AUDIO_URL.format(lang=lang, split=split, shard_idx=i)] *)
Definition audio_url (lang split : string) (shard_idx : nat) : string :=
  _BASE_URL ++ "audio/" ++ lang ++ "/" ++ split ++ "/" ++
  lang ++ "_" ++ split ++ "_" ++ py_str_nat shard_idx ++ ".tar".

(** [_TRANSCRIPT_URL.format(lang=lang, split=split)] *)
Definition transcript_url (lang split : string) : string :=
  _BASE_URL ++ "transcript/" ++ lang ++ "/" ++ split ++ ".tsv".

Definition splits : list string :=
  ["train"; "dev"; "test"; "other"; "invalidated"; "validated"].

(** [split_names.get(split, split)]; [datasets.Split.TRAIN],
    [VALIDATION] and [TEST] are the names ["train"], ["validation"] and
    ["test"]. *)
Definition split_name (split : string) : string :=
  if String.eqb split "train" then "train"
  else if String.eqb split "dev" then "validation"
  else if String.eqb split "test" then "test"
  else split.

(** The download manager of the framework, an external collaborator: its
    methods act on each URL or path of the nested dicts and lists they are
    given, so they are taken as functions of one URL or path. *)
Record dl_manager := {
  dl_download : string -> string;
  dl_extract : string -> string;
  dl_download_and_extract : string -> string;
  dl_iter_archive : string -> list (string * list byte);
  dl_is_streaming : bool
}.

(** [datasets.SplitGenerator(name=..., gen_kwargs={...})] *)
Record split_generator := mk_split_generator {
  sg_name : string;
  sg_local_extracted_archive_paths : option (list string);
  sg_archives : list (list (string * list byte));
  sg_meta_path : string
}.

(** [for split in splits: audio_urls[split] = [... for i in
    range(n_shards[lang][split])]], with [n_shards] the parsed
    [n_shards.json]. *)
Fixpoint audio_urls_from (lang : string) (shards : gmap string Z)
    (acc : gmap string (list string)) (ss : list string)
    : result (gmap string (list string)) :=
  match ss with
  | [] => Ok acc
  | split :: ss' =>
      match shards !! split with
      | None => Err (KeyError split)
      | Some n =>
          audio_urls_from lang shards
            (<[split := map (audio_url lang split) (seq 0 (Z.to_nat n))]> acc) ss'
      end
  end.

Definition audio_urls_of (lang : string) (n_shards : gmap string (gmap string Z))
    : result (gmap string (list string)) :=
  match n_shards !! lang with
  | None => Err (KeyError lang)
  | Some shards => audio_urls_from lang shards ∅ splits
  end.

Definition split_generators (lang : string) (n_shards : gmap string (gmap string Z))
    (dl : dl_manager) : result (list split_generator) :=
  match audio_urls_of lang n_shards with
  | Err e => Err e
  | Ok audio_urls =>
      let archive_paths := map (dl_download dl) <$> audio_urls in
      let local_extracted_archive_paths : gmap string (list string) :=
        if dl_is_streaming dl then ∅ else map (dl_extract dl) <$> archive_paths in
      Ok (map (fun split =>
                 mk_split_generator
                   (split_name split)
                   (local_extracted_archive_paths !! split)
                   (map (dl_iter_archive dl) (default [] (archive_paths !! split)))
                   (dl_download_and_extract dl (transcript_url lang split)))
              splits)
  end.

(** ** Sample inputs *)

Definition mp3_bytes : list byte := [x49; x44; x33].

(** A row with no extension on [path], the legacy [accents] column, and no
    [accent], [age], ... columns. *)
Definition row_clip1 : row :=
  list_to_map [("path", "clip1"); ("sentence", "hi"); ("accents", "us")].

(** A later row for the same clip, already carrying the extension. *)
Definition row_clip1_again : row :=
  list_to_map [("path", "clip1.mp3"); ("sentence", "again")].

Definition md_clip1 : gmap string row :=
  match build_metadata [row_clip1] with Ok m => m | Err _ => ∅ end.

Definition dl_sample : dl_manager := {|
  dl_download u := "/cache/" ++ u;
  dl_extract p := p ++ ".extracted";
  dl_download_and_extract u := "/cache/" ++ u;
  dl_iter_archive p := [("en_train_0/clip1.mp3", mp3_bytes)];
  dl_is_streaming := false
|}.

Definition n_shards_sample : gmap string (gmap string Z) :=
  {[ "en" := list_to_map [("train", 2%Z); ("dev", 1%Z); ("test", 1%Z);
                          ("other", 0%Z); ("invalidated", 0%Z); ("validated", 3%Z)] ]}.

(** The plan for ["en"] with these inputs, and its first (train) generator. *)
Definition sample_plan : list split_generator :=
  match split_generators "en" n_shards_sample dl_sample with Ok gs => gs | Err _ => [] end.

Definition sample_train : split_generator :=
  default (mk_split_generator "" None [] "") (sample_plan !! 0).

(** ** Lemmas about the helpers *)

Lemma list_ascii_of_string_app (a b : string) :
  list_ascii_of_string (a ++ b) = (list_ascii_of_string a ++ list_ascii_of_string b)%list.
Proof. induction a as [|c a IH]; simpl; [done | by rewrite IH]. Qed.

Lemma ascii_prefixb_app (l m : list ascii) : ascii_prefixb l (l ++ m)%list = true.
Proof.
  induction l as [|c l IH]; simpl; [done |].
  destruct (ascii_dec c c); [exact IH | congruence].
Qed.

Lemma str_endswith_app (p suffix : string) : str_endswith (p ++ suffix) suffix = true.
Proof.
  unfold str_endswith. rewrite list_ascii_of_string_app, rev_app_distr.
  apply ascii_prefixb_app.
Qed.

Lemma ascii_prefixb_inv (pre l : list ascii) :
  ascii_prefixb pre l = true -> exists m, l = (pre ++ m)%list.
Proof.
  revert l. induction pre as [|c pre IH]; intros l H; simpl.
  - by exists l.
  - destruct l as [|d l]; simpl in H; [done |].
    destruct (ascii_dec c d) as [<-|]; [|done].
    destruct (IH l H) as [m ->]. by exists m.
Qed.

Lemma string_of_list_ascii_app (l m : list ascii) :
  string_of_list_ascii (l ++ m)%list = string_of_list_ascii l ++ string_of_list_ascii m.
Proof. induction l as [|c l IH]; simpl; [done | by rewrite IH]. Qed.

Lemma str_endswith_inv (s suffix : string) :
  str_endswith s suffix = true -> exists s0, s = s0 ++ suffix.
Proof.
  unfold str_endswith. intros H.
  destruct (ascii_prefixb_inv _ _ H) as [m Hm].
  exists (string_of_list_ascii (rev m)).
  rewrite <- (string_of_list_ascii_of_string s).
  rewrite <- (rev_involutive (list_ascii_of_string s)), Hm, rev_app_distr,
    rev_involutive, string_of_list_ascii_app, string_of_list_ascii_of_string.
  done.
Qed.

Lemma str_app_assoc (a b c : string) : a ++ (b ++ c) = (a ++ b) ++ c.
Proof. induction a as [|x a IH]; [done | exact (f_equal (String x) IH)]. Qed.

Lemma str_app_cons (c : ascii) (a b : string) : String c a ++ b = String c (a ++ b).
Proof. reflexivity. Qed.

Lemma path_tail_acc_slash (s t acc : string) :
  path_tail_acc (s ++ String "/" t) acc = path_tail_acc t "".
Proof.
  revert acc. induction s as [|c s IH]; intros acc.
  - done.
  - rewrite str_app_cons. simpl.
    destruct (ascii_dec c "/"); apply IH.
Qed.

(** The base filename of [os.path.join(d, p)] is the base filename of [p]. *)
Lemma os_path_split_tail_join (d p : string) :
  os_path_split_tail (os_path_join d p) = os_path_split_tail p.
Proof.
  unfold os_path_join, os_path_split_tail.
  destruct (str_startswith p "/"); [done |].
  destruct (String.eqb_spec d "") as [->|Hd]; simpl; [done |].
  destruct (str_endswith d "/") eqn:He; simpl.
  - destruct (str_endswith_inv _ _ He) as [d0 ->].
    rewrite <- str_app_assoc. apply path_tail_acc_slash.
  - apply path_tail_acc_slash.
Qed.

(** What [fill_missing] does to each key. *)
Lemma fill_missing_lookup_gen (fs : list string) (r : row) (k : string) :
  foldl (fun r f => match r !! f with
                    | Some _ => r
                    | None => <[f := ""]> r
                    end) r fs !! k =
  match r !! k with
  | Some v => Some v
  | None => if decide (k ∈ fs) then Some "" else None
  end.
Proof.
  revert r. induction fs as [|f fs IH]; intros r; cbn [foldl].
  - destruct (r !! k); [done |]. destruct (decide (k ∈ [])); set_solver.
  - rewrite IH. destruct (r !! f) as [v|] eqn:Hf.
    + destruct (r !! k) eqn:Hk; [done |].
      assert (k <> f) by congruence.
      repeat case_decide; set_solver.
    + destruct (decide (k = f)) as [->|Hne].
      * rewrite lookup_insert_eq, Hf. cbv beta iota.
        destruct (decide (f ∈ f :: fs)); set_solver.
      * rewrite lookup_insert_ne by congruence.
        destruct (r !! k); [done |]. repeat case_decide; set_solver.
Qed.

Lemma fill_missing_lookup (r : row) (k : string) :
  fill_missing r !! k =
  match r !! k with
  | Some v => Some v
  | None => if decide (k ∈ data_fields) then Some "" else None
  end.
Proof. apply fill_missing_lookup_gen. Qed.

Lemma migrate_accents_lookup (r : row) (k : string) :
  migrate_accents r !! k =
  if decide (k = "accents") then None
  else if decide (k = "accent") then
    match r !! "accents" with Some a => Some a | None => r !! "accent" end
  else r !! k.
Proof.
  unfold migrate_accents.
  destruct (r !! "accents") as [a|] eqn:Ha.
  - destruct (decide (k = "accents")) as [->|H1].
    + apply lookup_delete_eq.
    + rewrite lookup_delete_ne by congruence.
      destruct (decide (k = "accent")) as [->|H2].
      * apply lookup_insert_eq.
      * by rewrite lookup_insert_ne by congruence.
  - destruct (decide (k = "accents")) as [->|H1]; [done |].
    destruct (decide (k = "accent")) as [->|H2]; done.
Qed.

Lemma mp3_path_endswith (p : string) : str_endswith (mp3_path p) ".mp3" = true.
Proof.
  unfold mp3_path. destruct (str_endswith p ".mp3") eqn:E; [done |].
  apply str_endswith_app.
Qed.

Lemma process_row_spec (r r' : row) :
  process_row r = Ok r' <->
  exists p, r !! "path" = Some p /\
    r' = fill_missing (migrate_accents (<["path" := mp3_path p]> r)).
Proof.
  unfold process_row, fix_extension, mp3_path. split.
  - destruct (r !! "path") as [p|] eqn:Hp; [|discriminate].
    exists p. split; [done |].
    destruct (str_endswith p ".mp3"); injection H as <-; [|done].
    by rewrite insert_id.
  - intros [p [Hp ->]]. rewrite Hp.
    destruct (str_endswith p ".mp3"); [|done].
    by rewrite insert_id.
Qed.

Lemma process_row_ok (r : row) :
  is_Some (r !! "path") -> exists r', process_row r = Ok r'.
Proof.
  intros [p Hp]. eexists. apply process_row_spec. eauto.
Qed.

Lemma accents_not_data_field : "accents" ∉ data_fields.
Proof. apply (bool_decide_eq_false _). vm_compute. reflexivity. Qed.

Lemma accent_data_field : "accent" ∈ data_fields.
Proof. apply (bool_decide_eq_true _). vm_compute. reflexivity. Qed.

Lemma process_row_unfold (r r' : row) (p : string) :
  process_row r = Ok r' -> r !! "path" = Some p ->
  r' = fill_missing (migrate_accents (<["path" := mp3_path p]> r)).
Proof.
  intros Hr Hp. apply process_row_spec in Hr as [p' [Hp' ->]].
  rewrite Hp in Hp'. by injection Hp' as <-.
Qed.

(** Fields other than [path], [accents] and [accent] are kept, or filled
    with [""] when they belong to the schema. *)
Lemma process_row_lookup_other (r r' : row) (k : string) :
  process_row r = Ok r' ->
  k <> "path" -> k <> "accents" -> k <> "accent" ->
  r' !! k = match r !! k with
            | Some v => Some v
            | None => if decide (k ∈ data_fields) then Some "" else None
            end.
Proof.
  intros Hr H1 H2 H3.
  destruct (proj1 (process_row_spec r r') Hr) as [p [Hp _]].
  rewrite (process_row_unfold r r' p Hr Hp).
  rewrite fill_missing_lookup, migrate_accents_lookup.
  rewrite decide_False by done. rewrite decide_False by done.
  by rewrite lookup_insert_ne by congruence.
Qed.

Lemma process_row_accents (r r' : row) :
  process_row r = Ok r' -> r' !! "accents" = None.
Proof.
  intros Hr. destruct (proj1 (process_row_spec r r') Hr) as [p [Hp _]].
  rewrite (process_row_unfold r r' p Hr Hp).
  rewrite fill_missing_lookup, migrate_accents_lookup.
  rewrite decide_True by done.
  rewrite decide_False by apply accents_not_data_field. done.
Qed.

Lemma process_row_accent (r r' : row) (a : string) :
  process_row r = Ok r' -> r !! "accents" = Some a -> r' !! "accent" = Some a.
Proof.
  intros Hr Ha. destruct (proj1 (process_row_spec r r') Hr) as [p [Hp _]].
  rewrite (process_row_unfold r r' p Hr Hp).
  rewrite fill_missing_lookup, migrate_accents_lookup.
  rewrite decide_False by done. rewrite decide_True by done.
  by rewrite lookup_insert_ne, Ha by done.
Qed.

Lemma process_row_accent_fill (r r' : row) :
  process_row r = Ok r' -> r !! "accents" = None -> r !! "accent" = None ->
  r' !! "accent" = Some "".
Proof.
  intros Hr Ha Ha'. destruct (proj1 (process_row_spec r r') Hr) as [p [Hp _]].
  rewrite (process_row_unfold r r' p Hr Hp).
  rewrite fill_missing_lookup, migrate_accents_lookup.
  rewrite decide_False by done. rewrite decide_True by done.
  rewrite !lookup_insert_ne, Ha, Ha' by done.
  by rewrite decide_True by apply accent_data_field.
Qed.

Lemma process_row_path (r r' : row) :
  process_row r = Ok r' ->
  exists p, r !! "path" = Some p /\ r' !! "path" = Some (mp3_path p).
Proof.
  intros Hr. destruct (proj1 (process_row_spec r r') Hr) as [p [Hp _]].
  exists p. split; [done |].
  rewrite (process_row_unfold r r' p Hr Hp).
  rewrite fill_missing_lookup, migrate_accents_lookup.
  rewrite decide_False by done. rewrite decide_False by done.
  by rewrite lookup_insert_eq.
Qed.

(** ** The metadata table *)

Lemma build_metadata_from_lookup (md md' : gmap string row) (rows : list row) :
  build_metadata_from md rows = Ok md' ->
  forall k r, md' !! k = Some r ->
    md !! k = Some r \/
    exists r0, r0 ∈ rows /\ process_row r0 = Ok r /\ r !! "path" = Some k.
Proof.
  revert md. induction rows as [|r0 rows IH]; intros md Hb k r Hk; simpl in Hb.
  - injection Hb as ->. by left.
  - destruct (process_row r0) as [r'|e] eqn:Hp; [|discriminate].
    destruct (r' !! "path") as [k'|] eqn:Hk'; [|discriminate].
    destruct (IH _ Hb k r Hk) as [Hin | [r1 [Hr1 Hr1']]].
    + destruct (decide (k = k')) as [->|Hne].
      * rewrite lookup_insert_eq in Hin. injection Hin as <-.
        right. exists r0. split; [set_solver | done].
      * rewrite lookup_insert_ne in Hin by congruence. by left.
    + right. exists r1. split; [set_solver | done].
Qed.

Lemma build_metadata_from_keeps (md md' : gmap string row) (rows : list row) (k : string) :
  build_metadata_from md rows = Ok md' -> is_Some (md !! k) -> is_Some (md' !! k).
Proof.
  revert md. induction rows as [|r0 rows IH]; intros md Hb Hk; simpl in Hb.
  - by injection Hb as <-.
  - destruct (process_row r0) as [r'|e]; [|discriminate].
    destruct (r' !! "path") as [k'|]; [|discriminate].
    apply (IH _ Hb). destruct (decide (k = k')) as [->|Hne].
    + by rewrite lookup_insert_eq.
    + by rewrite lookup_insert_ne by congruence.
Qed.

Lemma build_metadata_from_ok (md : gmap string row) (rows : list row) :
  (forall r, r ∈ rows -> is_Some (r !! "path")) ->
  exists md', build_metadata_from md rows = Ok md'.
Proof.
  revert md. induction rows as [|r0 rows IH]; intros md Hall; simpl.
  - eauto.
  - destruct (process_row_ok r0) as [r' Hr']; [apply Hall; set_solver |].
    rewrite Hr'. destruct (process_row_path _ _ Hr') as [p [_ ->]].
    apply IH. intros r Hr. apply Hall. set_solver.
Qed.

Lemma build_metadata_from_app (md : gmap string row) (rows1 rows2 : list row) :
  build_metadata_from md (rows1 ++ rows2) =
  match build_metadata_from md rows1 with
  | Ok m => build_metadata_from m rows2
  | Err e => Err e
  end.
Proof.
  revert md. induction rows1 as [|r0 rows1 IH]; intros md; simpl; [done |].
  destruct (process_row r0); [|done].
  destruct (_ !! "path"); [apply IH | done].
Qed.

(** Rows filed under other keys leave the entry at [k] alone. *)
Lemma build_metadata_from_other (md md' : gmap string row) (rows : list row) (k : string) :
  build_metadata_from md rows = Ok md' ->
  (forall r r', r ∈ rows -> process_row r = Ok r' -> r' !! "path" <> Some k) ->
  md' !! k = md !! k.
Proof.
  revert md. induction rows as [|r0 rows IH]; intros md Hb Hnot; simpl in Hb.
  - by injection Hb as <-.
  - destruct (process_row r0) as [r'|e] eqn:Hp; [|discriminate].
    destruct (r' !! "path") as [k'|] eqn:Hk'; [|discriminate].
    rewrite (IH _ Hb).
    + rewrite lookup_insert_ne; [done |].
      intros ->. apply (Hnot r0 r'); [set_solver | done | done].
    + intros r r'' Hr. apply Hnot. set_solver.
Qed.

(** A row stored in the table comes from the transcript, processed. *)
Lemma build_metadata_lookup (rows : list row) (md : gmap string row) (k : string) (r : row) :
  build_metadata rows = Ok md -> md !! k = Some r ->
  exists r0, r0 ∈ rows /\ process_row r0 = Ok r /\ r !! "path" = Some k.
Proof.
  intros Hb Hk. destruct (build_metadata_from_lookup _ _ _ Hb k r Hk) as [H|H]; [|done].
  by rewrite lookup_empty in H.
Qed.

(** ** The join *)

Lemma make_record_path (r : row) (p : string) (c : list byte) :
  make_record r p c !! "path" = Some (VStr p).
Proof. unfold make_record. apply lookup_insert_eq. Qed.

Lemma make_record_audio (r : row) (p : string) (c : list byte) :
  make_record r p c !! "audio" = Some (VAudio p c).
Proof.
  unfold make_record. rewrite lookup_insert_ne by done. apply lookup_insert_eq.
Qed.

Lemma make_record_other (r : row) (p : string) (c : list byte) (f : string) :
  f <> "path" -> f <> "audio" -> make_record r p c !! f = VStr <$> r !! f.
Proof.
  intros H1 H2. unfold make_record.
  rewrite !lookup_insert_ne by congruence. apply lookup_fmap.
Qed.

Lemma gen_entries_yielded (md : gmap string row) (pre : option (list string))
    (i : nat) (es : list (string * list byte)) (k : string) (rec : record) :
  (k, rec) ∈ yielded (gen_entries md pre i es) ->
  exists p c r, (p, c) ∈ es /\ md !! os_path_split_tail p = Some r /\
    resolve_path pre i p = Ok k /\ rec = make_record r k c.
Proof.
  induction es as [|[p c] es IH]; simpl; intros Hin; [set_solver |].
  destruct (md !! os_path_split_tail p) as [r|] eqn:Hr.
  - destruct (resolve_path pre i p) as [p'|e] eqn:Hres; simpl in Hin; [|set_solver].
    apply elem_of_cons in Hin as [Heq | Hin].
    + injection Heq as -> ->. exists p, c, r. split; [set_solver | done].
    + destruct (IH Hin) as (p1 & c1 & r1 & ? & ? & ? & ?).
      exists p1, c1, r1. split; [set_solver | done].
  - destruct (IH Hin) as (p1 & c1 & r1 & ? & ? & ? & ?).
    exists p1, c1, r1. split; [set_solver | done].
Qed.

Lemma gen_archives_yielded (md : gmap string row) (pre : option (list string))
    (i : nat) (archs : list (list (string * list byte))) (k : string) (rec : record) :
  (k, rec) ∈ yielded (gen_archives md pre i archs) ->
  exists j a p c r, archs !! j = Some a /\ (p, c) ∈ a /\
    md !! os_path_split_tail p = Some r /\
    resolve_path pre (i + j) p = Ok k /\ rec = make_record r k c.
Proof.
  revert i. induction archs as [|a archs IH]; intros i Hin; simpl in Hin; [set_solver |].
  destruct (raised (gen_entries md pre i a)) eqn:He.
  - destruct (gen_entries_yielded _ _ _ _ _ _ Hin) as (p & c & r & ? & ? & ? & ?).
    exists 0, a, p, c, r. rewrite Nat.add_0_r. done.
  - simpl in Hin. apply elem_of_app in Hin as [Hin | Hin].
    + destruct (gen_entries_yielded _ _ _ _ _ _ Hin) as (p & c & r & ? & ? & ? & ?).
      exists 0, a, p, c, r. rewrite Nat.add_0_r. done.
    + destruct (IH _ Hin) as (j & a' & p & c & r & ? & ? & ? & Hres & ?).
      exists (S j), a', p, c, r. rewrite <- Nat.add_succ_comm. done.
Qed.

Lemma generate_examples_yielded (pre : option (list string))
    (archs : list (list (string * list byte))) (rows : list row) (k : string) (rec : record) :
  (k, rec) ∈ yielded (generate_examples pre archs rows) ->
  exists md, build_metadata rows = Ok md /\
  exists j a p c r, archs !! j = Some a /\ (p, c) ∈ a /\
    md !! os_path_split_tail p = Some r /\
    resolve_path pre j p = Ok k /\ rec = make_record r k c.
Proof.
  unfold generate_examples. destruct (build_metadata rows) as [md|e]; simpl; [|set_solver].
  intros Hin. exists md. split; [done |]. apply (gen_archives_yielded _ _ 0 _ _ _ Hin).
Qed.

(** Removing an entry whose filename has no row changes nothing. *)
Lemma gen_entries_skip (md : gmap string row) (pre : option (list string)) (i : nat)
    (es1 es2 : list (string * list byte)) (p : string) (c : list byte) :
  md !! os_path_split_tail p = None ->
  gen_entries md pre i (es1 ++ (p, c) :: es2) = gen_entries md pre i (es1 ++ es2).
Proof.
  intros Hp. induction es1 as [|[p1 c1] es1 IH]; simpl.
  - by rewrite Hp.
  - destruct (md !! os_path_split_tail p1); [|done].
    destruct (resolve_path pre i p1); [by rewrite IH | done].
Qed.

Lemma gen_archives_congr (md : gmap string row) (pre : option (list string)) (i : nat)
    (as1 as2 : list (list (string * list byte))) (x y : list (string * list byte)) :
  gen_entries md pre (i + length as1) x = gen_entries md pre (i + length as1) y ->
  gen_archives md pre i (as1 ++ x :: as2) = gen_archives md pre i (as1 ++ y :: as2).
Proof.
  revert i. induction as1 as [|a as1 IH]; intros i Hxy; simpl in *.
  - rewrite Nat.add_0_r in Hxy. by rewrite Hxy.
  - rewrite (IH (S i)); [done |]. by rewrite Nat.add_succ_comm.
Qed.

Lemma resolve_path_ok (pre : option (list string)) (i : nat) (p : string) :
  (forall l, pre = Some l -> l <> [] -> i < length l) ->
  exists p', resolve_path pre i p = Ok p'.
Proof.
  intros Hlen. unfold resolve_path.
  destruct pre as [[|d l]|]; eauto.
  destruct (lookup_lt_is_Some_2 (d :: l) i) as [d' Hd'].
  - by apply Hlen.
  - rewrite Hd'. eauto.
Qed.

Lemma gen_entries_no_error (md : gmap string row) (pre : option (list string)) (i : nat)
    (es : list (string * list byte)) :
  (forall l, pre = Some l -> l <> [] -> i < length l) ->
  raised (gen_entries md pre i es) = None.
Proof.
  intros Hlen. induction es as [|[p c] es IH]; simpl; [done |].
  destruct (md !! os_path_split_tail p); [|done].
  destruct (resolve_path_ok pre i p Hlen) as [p' ->]. done.
Qed.

Lemma gen_archives_no_error (md : gmap string row) (pre : option (list string)) (i : nat)
    (archs : list (list (string * list byte))) :
  (forall l, pre = Some l -> l <> [] -> i + length archs <= length l) ->
  raised (gen_archives md pre i archs) = None.
Proof.
  revert i. induction archs as [|a archs IH]; intros i Hlen; simpl; [done |].
  rewrite gen_entries_no_error.
  - simpl. apply IH. intros l Hl Hne. specialize (Hlen l Hl Hne). simpl in Hlen. lia.
  - intros l Hl Hne. specialize (Hlen l Hl Hne). simpl in Hlen. lia.
Qed.

Lemma resolve_path_tail (pre : option (list string)) (i : nat) (p k : string) :
  resolve_path pre i p = Ok k -> os_path_split_tail k = os_path_split_tail p.
Proof.
  unfold resolve_path. destruct pre as [[|d0 l]|]; try (injection 1 as <-; done).
  destruct ((d0 :: l) !! i) as [d|]; [|discriminate].
  injection 1 as <-. apply os_path_split_tail_join.
Qed.

(** ** What a run raises, and what it yields *)

Lemma process_row_err (r : row) (e : error) :
  process_row r = Err e -> r !! "path" = None /\ e = KeyError "path".
Proof.
  unfold process_row, fix_extension. intros H.
  destruct (r !! "path") as [p|]; [|by injection H as <-].
  destruct (str_endswith p ".mp3"); discriminate H.
Qed.

(** Building the table fails only on a row without [path], with
    [KeyError "path"]. *)
Lemma build_metadata_from_err (md : gmap string row) (rows : list row) (e : error) :
  build_metadata_from md rows = Err e ->
  e = KeyError "path" /\ exists r, r ∈ rows /\ r !! "path" = None.
Proof.
  revert md. induction rows as [|r0 rows IH]; intros md Hb; simpl in Hb; [discriminate |].
  destruct (process_row r0) as [r'|e'] eqn:Hp.
  - destruct (r' !! "path") as [k|] eqn:Hk.
    + destruct (IH _ Hb) as [-> (r & Hr & Hrp)]. split; [done |].
      exists r. split; [set_solver | done].
    + destruct (process_row_path _ _ Hp) as (p & _ & Hp'). congruence.
  - injection Hb as <-. destruct (process_row_err _ _ Hp) as [Hn ->].
    split; [done |]. exists r0. split; [set_solver | done].
Qed.

Lemma build_metadata_from_paths (md md' : gmap string row) (rows : list row) :
  build_metadata_from md rows = Ok md' -> forall r, r ∈ rows -> is_Some (r !! "path").
Proof.
  revert md. induction rows as [|r0 rows IH]; intros md Hb r Hr; simpl in Hb; [set_solver |].
  destruct (process_row r0) as [r'|e] eqn:Hp; [|discriminate].
  destruct (r' !! "path") as [k|]; [|discriminate].
  apply elem_of_cons in Hr as [-> | Hr].
  - destruct (process_row_path _ _ Hp) as (p & Hp0 & _). by rewrite Hp0.
  - exact (IH _ Hb r Hr).
Qed.

Lemma process_row_schema (r r' : row) (f : string) :
  process_row r = Ok r' -> f ∈ data_fields -> is_Some (r' !! f).
Proof.
  intros Hr Hf. destruct (proj1 (process_row_spec r r') Hr) as [p [Hp ->]].
  rewrite fill_missing_lookup. destruct (_ !! f); [done |].
  by rewrite decide_True by done.
Qed.

Lemma resolve_path_err (pre : option (list string)) (i : nat) (p : string) (e : error) :
  resolve_path pre i p = Err e ->
  e = IndexError /\ exists l, pre = Some l /\ l <> [] /\ length l <= i.
Proof.
  unfold resolve_path. intros H.
  destruct pre as [[|d0 l]|]; try discriminate H.
  destruct ((d0 :: l) !! i) as [d|] eqn:Hd; [discriminate H |].
  injection H as <-. split; [done |]. exists (d0 :: l).
  split; [done |]. split; [done |]. by apply lookup_ge_None_1.
Qed.

Lemma resolve_path_short (l : list string) (i : nat) (p : string) :
  l <> [] -> length l <= i -> resolve_path (Some l) i p = Err IndexError.
Proof.
  intros Hne Hlen. unfold resolve_path. destruct l as [|d0 l]; [done |].
  by rewrite lookup_ge_None_2.
Qed.

Lemma resolve_path_falsy (pre : option (list string)) (i : nat) (p : string) :
  py_truthy pre = false -> resolve_path pre i p = Ok p.
Proof. intros Ht. unfold resolve_path. destruct pre as [[|d0 l]|]; done. Qed.

Lemma gen_entries_raised (md : gmap string row) (pre : option (list string)) (i : nat)
    (es : list (string * list byte)) (e : error) :
  raised (gen_entries md pre i es) = Some e <->
  e = IndexError /\ (exists l, pre = Some l /\ l <> [] /\ length l <= i) /\
  exists p c, (p, c) ∈ es /\ is_Some (md !! os_path_split_tail p).
Proof.
  induction es as [|[p c] es IH]; simpl.
  - split; [intros H; discriminate H |].
    intros (_ & _ & p & c & Hin & _). set_solver.
  - destruct (md !! os_path_split_tail p) as [r|] eqn:Hr.
    + destruct (resolve_path pre i p) as [p'|e'] eqn:Hres; simpl.
      * rewrite IH. split.
        -- intros (-> & Hl & p1 & c1 & Hin & Hm). split; [done |]. split; [done |].
           exists p1, c1. split; [set_solver | done].
        -- intros (-> & (l & -> & Hne & Hlen) & _).
           rewrite (resolve_path_short l i p Hne Hlen) in Hres. discriminate Hres.
      * destruct (resolve_path_err _ _ _ _ Hres) as [-> Hl]. split.
        -- intros H. injection H as <-. split; [done |]. split; [done |].
           exists p, c. split; [set_solver | by rewrite Hr].
        -- by intros [-> _].
    + rewrite IH. split.
      * intros (-> & Hl & p1 & c1 & Hin & Hm). split; [done |]. split; [done |].
        exists p1, c1. split; [set_solver | done].
      * intros (-> & Hl & p1 & c1 & Hin & Hm). split; [done |]. split; [done |].
        exists p1, c1. split; [|done].
        apply elem_of_cons in Hin as [Heq | Hin]; [|done].
        injection Heq as -> ->. rewrite Hr in Hm. by destruct Hm.
Qed.

(** The loop over the archives raises only [IndexError], exactly when a
    non-empty prefix list has no element for an archive holding a
    matching entry. *)
Lemma gen_archives_raised (md : gmap string row) (pre : option (list string)) (i : nat)
    (archs : list (list (string * list byte))) (e : error) :
  raised (gen_archives md pre i archs) = Some e <->
  e = IndexError /\ exists l, pre = Some l /\ l <> [] /\
    exists j a p c, archs !! j = Some a /\ (p, c) ∈ a /\
      is_Some (md !! os_path_split_tail p) /\ length l <= i + j.
Proof.
  revert i. induction archs as [|a archs IH]; intros i; simpl.
  - split; [intros H; discriminate H |].
    intros (_ & l & _ & _ & j & a & _ & _ & Ha & _). by rewrite lookup_nil in Ha.
  - destruct (raised (gen_entries md pre i a)) as [e'|] eqn:He.
    + rewrite He.
      pose proof (proj1 (gen_entries_raised md pre i a e') He)
        as (-> & (l & -> & Hne & Hlen) & p & c & Hin & Hm).
      split.
      * intros H. injection H as <-. split; [done |].
        exists l. split; [done |]. split; [done |].
        exists 0, a, p, c. rewrite Nat.add_0_r. done.
      * by intros [-> _].
    + simpl. rewrite IH. split.
      * intros (-> & l & -> & Hne & j & a' & p & c & Ha & Hin & Hm & Hlen).
        split; [done |]. exists l. split; [done |]. split; [done |].
        exists (S j), a', p, c. rewrite <- Nat.add_succ_comm. done.
      * intros (-> & l & -> & Hne & [|j] & a' & p & c & Ha & Hin & Hm & Hlen).
        -- simpl in Ha. injection Ha as <-. exfalso.
           assert (raised (gen_entries md (Some l) i a) = Some IndexError) as Hc.
           { apply gen_entries_raised. split; [done |]. split.
             - exists l. rewrite Nat.add_0_r in Hlen. done.
             - eauto. }
           congruence.
        -- split; [done |]. exists l. split; [done |]. split; [done |].
           exists j, a', p, c. simpl in Ha. rewrite Nat.add_succ_comm. done.
Qed.

Lemma gen_entries_basenames (md : gmap string row) (pre : option (list string)) (i : nat)
    (es : list (string * list byte)) :
  raised (gen_entries md pre i es) = None ->
  map (fun kv => os_path_split_tail kv.1) (yielded (gen_entries md pre i es)) =
  map (fun e => os_path_split_tail e.1)
      (filter (fun e : string * list byte => is_Some (md !! os_path_split_tail e.1)) es).
Proof.
  induction es as [|[p c] es IH]; intros Hn; [done |].
  cbn [gen_entries] in *.
  destruct (md !! os_path_split_tail p) as [r|] eqn:Hr.
  - rewrite filter_cons_True by (simpl; rewrite Hr; eauto).
    destruct (resolve_path pre i p) as [p'|e] eqn:Hres; simpl in Hn; [|discriminate Hn].
    simpl. rewrite (resolve_path_tail _ _ _ _ Hres). f_equal. by apply IH.
  - rewrite filter_cons_False by (simpl; rewrite Hr; by intros []).
    by apply IH.
Qed.

Lemma gen_archives_basenames (md : gmap string row) (pre : option (list string)) (i : nat)
    (archs : list (list (string * list byte))) :
  raised (gen_archives md pre i archs) = None ->
  map (fun kv => os_path_split_tail kv.1) (yielded (gen_archives md pre i archs)) =
  map (fun e => os_path_split_tail e.1)
      (filter (fun e : string * list byte => is_Some (md !! os_path_split_tail e.1))
              (concat archs)).
Proof.
  revert i. induction archs as [|a archs IH]; intros i Hn; [done |].
  cbn [gen_archives concat] in *.
  destruct (raised (gen_entries md pre i a)) as [e|] eqn:He.
  - rewrite He in Hn. discriminate Hn.
  - simpl in Hn. simpl. rewrite filter_app, !map_app.
    rewrite (gen_entries_basenames _ _ _ _ He). f_equal. by apply IH.
Qed.

Lemma gen_entries_falsy (md : gmap string row) (pre : option (list string)) (i : nat)
    (es : list (string * list byte)) :
  py_truthy pre = false ->
  raised (gen_entries md pre i es) = None /\
  map fst (yielded (gen_entries md pre i es)) =
  map fst (filter (fun e : string * list byte => is_Some (md !! os_path_split_tail e.1)) es).
Proof.
  intros Ht. induction es as [|[p c] es IH]; [done |].
  cbn [gen_entries].
  destruct (md !! os_path_split_tail p) as [r|] eqn:Hr.
  - rewrite filter_cons_True by (simpl; rewrite Hr; eauto).
    rewrite (resolve_path_falsy _ _ _ Ht). simpl.
    destruct IH as [IH1 IH2]. split; [done |]. f_equal. exact IH2.
  - rewrite filter_cons_False by (simpl; rewrite Hr; by intros []).
    exact IH.
Qed.

Lemma gen_archives_falsy (md : gmap string row) (pre : option (list string)) (i : nat)
    (archs : list (list (string * list byte))) :
  py_truthy pre = false ->
  raised (gen_archives md pre i archs) = None /\
  map fst (yielded (gen_archives md pre i archs)) =
  map fst (filter (fun e : string * list byte => is_Some (md !! os_path_split_tail e.1))
                  (concat archs)).
Proof.
  intros Ht. revert i. induction archs as [|a archs IH]; intros i; [done |].
  cbn [gen_archives concat].
  destruct (gen_entries_falsy md pre i a Ht) as [He1 He2].
  rewrite He1. simpl. destruct (IH (S i)) as [IH1 IH2].
  split; [done |]. rewrite filter_app, !map_app. f_equal; done.
Qed.

Lemma gen_entries_empty (pre : option (list string)) (i : nat)
    (es : list (string * list byte)) :
  gen_entries ∅ pre i es = mk_trace [] None.
Proof.
  induction es as [|[p c] es IH]; [done |].
  cbn [gen_entries]. by rewrite lookup_empty.
Qed.

Lemma gen_archives_empty (pre : option (list string)) (i : nat)
    (archs : list (list (string * list byte))) :
  gen_archives ∅ pre i archs = mk_trace [] None.
Proof.
  revert i. induction archs as [|a archs IH]; intros i; [done |].
  cbn [gen_archives]. rewrite gen_entries_empty. simpl. by rewrite IH.
Qed.

(** ** Facts about the split plan *)

Lemma py_str_nat_inj (i j : nat) : py_str_nat i = py_str_nat j -> i = j.
Proof.
  unfold py_str_nat. intros H.
  apply (f_equal NilEmpty.uint_of_string) in H. rewrite !NilEmpty.usu in H.
  injection H as H. rewrite <- (Unsigned.of_to i), <- (Unsigned.of_to j), H.
  reflexivity.
Qed.

Lemma str_app_inv_l (a b c : string) : a ++ b = a ++ c -> b = c.
Proof.
  induction a as [|x a IH]; intros H; [exact H |].
  rewrite !str_app_cons in H. injection H as H. exact (IH H).
Qed.

Lemma str_app_inv_r (a b t : string) : a ++ t = b ++ t -> a = b.
Proof.
  intros H. apply (f_equal list_ascii_of_string) in H.
  rewrite !list_ascii_of_string_app in H. apply app_inv_tail in H.
  rewrite <- (string_of_list_ascii_of_string a), <- (string_of_list_ascii_of_string b), H.
  reflexivity.
Qed.

Lemma audio_urls_from_other (lang : string) (shards : gmap string Z)
    (acc m : gmap string (list string)) (ss : list string) (s : string) :
  audio_urls_from lang shards acc ss = Ok m -> s ∉ ss -> m !! s = acc !! s.
Proof.
  revert acc. induction ss as [|s' ss IH]; intros acc H Hs; simpl in H.
  - by injection H as <-.
  - destruct (shards !! s') as [n|]; [|discriminate].
    rewrite (IH _ H) by set_solver. rewrite lookup_insert_ne; [done | set_solver].
Qed.

Lemma audio_urls_from_lookup (lang : string) (shards : gmap string Z)
    (acc m : gmap string (list string)) (ss : list string) (s : string) :
  audio_urls_from lang shards acc ss = Ok m -> s ∈ ss ->
  exists n, shards !! s = Some n /\
    m !! s = Some (map (audio_url lang s) (seq 0 (Z.to_nat n))).
Proof.
  revert acc. induction ss as [|s' ss IH]; intros acc H Hs; simpl in H; [set_solver |].
  destruct (shards !! s') as [n|] eqn:Hn; [|discriminate].
  destruct (decide (s ∈ ss)) as [Hin|Hnin].
  - exact (IH _ H Hin).
  - assert (s = s') as -> by set_solver.
    exists n. split; [done |].
    rewrite (audio_urls_from_other _ _ _ _ _ _ H Hnin). apply lookup_insert_eq.
Qed.

Lemma audio_urls_from_ok (lang : string) (shards : gmap string Z)
    (acc : gmap string (list string)) (ss : list string) :
  (forall s, s ∈ ss -> is_Some (shards !! s)) ->
  exists m, audio_urls_from lang shards acc ss = Ok m.
Proof.
  revert acc. induction ss as [|s ss IH]; intros acc Hall; simpl; [eauto |].
  destruct (Hall s ltac:(set_solver)) as [n ->].
  apply IH. intros s' Hs'. apply Hall. set_solver.
Qed.

Lemma audio_urls_from_err (lang : string) (shards : gmap string Z)
    (acc : gmap string (list string)) (ss : list string) (e : error) :
  audio_urls_from lang shards acc ss = Err e ->
  exists s, s ∈ ss /\ shards !! s = None /\ e = KeyError s.
Proof.
  revert acc. induction ss as [|s ss IH]; intros acc H; simpl in H; [discriminate |].
  destruct (shards !! s) as [n|] eqn:Hn.
  - destruct (IH _ H) as (s' & ? & ? & ?). exists s'. split; [set_solver | done].
  - injection H as <-. exists s. split; [set_solver | done].
Qed.

Lemma lookup_map_list {A B} (f : A -> B) (l : list A) (k : nat) :
  map f l !! k = f <$> l !! k.
Proof. revert k. induction l as [|x l IH]; intros [|k]; simpl; auto. Qed.

(** What the plan holds for the split at position [k]. *)
Lemma split_generators_at (lang : string) (n_shards : gmap string (gmap string Z))
    (dl : dl_manager) (gs : list split_generator) (k : nat) (s : string) :
  split_generators lang n_shards dl = Ok gs -> splits !! k = Some s ->
  exists shards n g, n_shards !! lang = Some shards /\ shards !! s = Some n /\
    gs !! k = Some g /\
    sg_name g = split_name s /\
    sg_archives g =
      map (fun i => dl_iter_archive dl (dl_download dl (audio_url lang s i)))
          (seq 0 (Z.to_nat n)) /\
    sg_local_extracted_archive_paths g =
      (if dl_is_streaming dl then None
       else Some (map (fun i => dl_extract dl (dl_download dl (audio_url lang s i)))
                      (seq 0 (Z.to_nat n)))) /\
    sg_meta_path g = dl_download_and_extract dl (transcript_url lang s).
Proof.
  unfold split_generators, audio_urls_of. remember splits as ss eqn:Hss.
  intros H Hk.
  destruct (n_shards !! lang) as [shards|] eqn:Hl; [|discriminate].
  destruct (audio_urls_from lang shards ∅ ss) as [m|e] eqn:Hm; [|discriminate].
  injection H as <-.
  assert (Hs : s ∈ ss) by (apply list_elem_of_lookup; eauto).
  destruct (audio_urls_from_lookup _ _ _ _ _ _ Hm Hs) as (n & Hn & Hms).
  exists shards, n. eexists. split; [done |]. split; [done |].
  split; [by rewrite lookup_map_list, Hk |].
  simpl. rewrite !lookup_fmap, Hms. simpl.
  split; [done |]. split; [by rewrite !map_map |].
  split; [|done].
  destruct (dl_is_streaming dl); [done |].
  rewrite !lookup_fmap, Hms. simpl. by rewrite !map_map.
Qed.

Lemma split_generators_elem (lang : string) (n_shards : gmap string (gmap string Z))
    (dl : dl_manager) (gs : list split_generator) (g : split_generator) :
  split_generators lang n_shards dl = Ok gs -> g ∈ gs ->
  exists k s, splits !! k = Some s /\ gs !! k = Some g.
Proof.
  intros H Hg. apply list_elem_of_lookup in Hg as [k Hk].
  unfold split_generators in H. remember splits as ss eqn:Hss.
  destruct (audio_urls_of lang n_shards); [|discriminate]. injection H as <-.
  rewrite lookup_map_list in Hk.
  destruct (ss !! k) as [s|] eqn:Hs; [|discriminate].
  exists k, s. split; [done |]. by rewrite lookup_map_list, Hs.
Qed.

Lemma audio_url_inj (lang s : string) (i j : nat) :
  audio_url lang s i = audio_url lang s j -> i = j.
Proof.
  unfold audio_url. intros H.
  do 10 apply str_app_inv_l in H.
  apply str_app_inv_r in H. exact (py_str_nat_inj _ _ H).
Qed.

Lemma NoDup_map_inj {A B} (f : A -> B) (l : list A) :
  (forall x y, f x = f y -> x = y) -> NoDup l -> NoDup (map f l).
Proof.
  intros Hf. induction 1 as [|x l Hx Hl IH]; simpl; constructor; [|done].
  intros Hin. apply Hx. clear IH Hl Hx.
  induction l as [|y l IHl]; simpl in Hin; [set_solver |].
  apply elem_of_cons in Hin as [Heq | Hin].
  - apply Hf in Heq as ->. set_solver.
  - apply elem_of_cons. right. exact (IHl Hin).
Qed.

(** ** Facts about [Run] *)

Lemma run_build_det md rows res1 res2 :
  Run.BuildMeta md rows res1 -> Run.BuildMeta md rows res2 -> res1 = res2.
Proof.
  intros H1. revert res2.
  induction H1 as [md|md r rs e Hp|md r rs r' Hp Hk|md r rs r' k res Hp Hk _ IH];
    intros res2 H2; inversion H2 as [|? ? ? e2 Hp2|? ? ? r2 Hp2 Hk2|? ? ? r2 k2 res2' Hp2 Hk2 Hb2];
    subst; try congruence.
  rewrite Hp in Hp2. injection Hp2 as <-. rewrite Hk in Hk2. injection Hk2 as <-.
  by apply IH.
Qed.

Lemma run_entries_det md pre i es t1 t2 :
  Run.Entries md pre i es t1 -> Run.Entries md pre i es t2 -> t1 = t2.
Proof.
  intros H1. revert t2.
  induction H1 as [|p c es t Hp _ IH|p c es r e Hp Hres|p c es r p' t Hp Hres _ IH];
    intros t2 H2; inversion H2 as [|? ? ? ? Hp2 He2|? ? ? r2 ? Hp2 Hres2|? ? ? r2 p2 t' Hp2 Hres2 He2];
    subst; try congruence.
  - by apply IH.
  - rewrite Hp in Hp2. injection Hp2 as <-. rewrite Hres in Hres2.
    injection Hres2 as <-. by rewrite (IH _ He2).
Qed.

Lemma run_archives_det md pre i archs t1 t2 :
  Run.Archives md pre i archs t1 -> Run.Archives md pre i archs t2 -> t1 = t2.
Proof.
  intros H1. revert t2.
  induction H1 as [i|i a rest t e He Hr|i a rest t t' He Hr _ IH];
    intros t2 H2; inversion H2 as [|? ? ? t2' e2 He2 Hr2|? ? ? t2' t2'' He2 Hr2 Ha2];
    subst; try done.
  - exact (run_entries_det _ _ _ _ _ _ He He2).
  - rewrite (run_entries_det _ _ _ _ _ _ He He2) in Hr. congruence.
  - rewrite (run_entries_det _ _ _ _ _ _ He He2) in Hr. congruence.
  - rewrite (run_entries_det _ _ _ _ _ _ He He2). by rewrite (IH _ Ha2).
Qed.

Lemma run_build_metadata_from md rows :
  Run.BuildMeta md rows (build_metadata_from md rows).
Proof.
  revert md. induction rows as [|r rs IH]; intros md; simpl; [constructor |].
  destruct (process_row r) as [r'|e] eqn:Hp; [|by constructor].
  destruct (r' !! "path") as [k|] eqn:Hk.
  - by eapply Run.bm_store.
  - by eapply Run.bm_nokey.
Qed.

Lemma run_gen_entries md pre i es :
  Run.Entries md pre i es (gen_entries md pre i es).
Proof.
  induction es as [|[p c] es IH]; simpl; [constructor |].
  destruct (md !! os_path_split_tail p) as [r|] eqn:Hr; [|by constructor].
  destruct (resolve_path pre i p) as [p'|e] eqn:Hres.
  - by eapply Run.en_yield.
  - by eapply Run.en_raise.
Qed.

Lemma run_gen_archives md pre i archs :
  Run.Archives md pre i archs (gen_archives md pre i archs).
Proof.
  revert i. induction archs as [|a archs IH]; intros i; simpl; [constructor |].
  destruct (raised (gen_entries md pre i a)) eqn:He.
  - eapply Run.ar_raise; [apply run_gen_entries | done].
  - eapply Run.ar_next; [apply run_gen_entries | done | apply IH].
Qed.

(** [generate_examples] computes a run. *)
Lemma run_generate_examples pre archs rows :
  Run.Generate pre archs rows (generate_examples pre archs rows).
Proof.
  unfold generate_examples, build_metadata.
  pose proof (run_build_metadata_from ∅ rows) as Hb.
  destruct (build_metadata_from ∅ rows).
  - eapply Run.gen_join; [exact Hb | apply run_gen_archives].
  - by apply Run.gen_meta_err.
Qed.

Lemma run_generate_det pre archs rows t1 t2 :
  Run.Generate pre archs rows t1 -> Run.Generate pre archs rows t2 -> t1 = t2.
Proof.
  intros H1 H2.
  destruct H1 as [e1 Hb1|md1 t1 Hb1 Ha1]; destruct H2 as [e2 Hb2|md2 t2 Hb2 Ha2].
  - pose proof (run_build_det _ _ _ _ Hb1 Hb2). congruence.
  - pose proof (run_build_det _ _ _ _ Hb1 Hb2). congruence.
  - pose proof (run_build_det _ _ _ _ Hb1 Hb2). congruence.
  - pose proof (run_build_det _ _ _ _ Hb1 Hb2) as Hmd. injection Hmd as <-.
    exact (run_archives_det _ _ _ _ _ _ Ha1 Ha2).
Qed.

Example build_clip1 : build_metadata [row_clip1] = Ok md_clip1.
Proof. vm_compute. reflexivity. Qed.

(** The end-to-end scenario: one record, keyed by the entry's path, with the
    bytes attached and the absent schema fields empty. *)
Example scenario_clip1 :
  let t := generate_examples None [[("en_train_0/clip1.mp3", mp3_bytes)]] [row_clip1] in
  map fst (yielded t) = ["en_train_0/clip1.mp3"] /\ raised t = None /\
  (yielded t !! 0) ≫= (fun '(_, rec) => rec !! "sentence") = Some (VStr "hi") /\
  (yielded t !! 0) ≫= (fun '(_, rec) => rec !! "age") = Some (VStr "") /\
  (yielded t !! 0) ≫= (fun '(_, rec) => rec !! "audio") =
    Some (VAudio "en_train_0/clip1.mp3" mp3_bytes).
Proof. vm_compute. repeat split. Qed.

(** A second archive with a prefix list of one directory: the first record
    comes out, then [local_extracted_archive_paths[1]] raises. *)
Example scenario_short_prefix_list :
  let t := generate_examples (Some ["/ex"])
             [[("en_train_0/clip1.mp3", mp3_bytes)]; [("clip1.mp3", [])]] [row_clip1] in
  map fst (yielded t) = ["/ex/en_train_0/clip1.mp3"] /\ raised t = Some IndexError.
Proof. vm_compute. split; reflexivity. Qed.

(** * Claims *)

(** C1: every key of the metadata table ends with [".mp3"] (and is the
    [path] of the row stored under it); a row whose [path] lacks the
    extension is filed under [path ++ ".mp3"]. *)
Theorem metadata_keys_end_with_mp3 (rows : list row) (md : gmap string row) :
  build_metadata rows = Ok md ->
  (forall k r, md !! k = Some r -> str_endswith k ".mp3" = true /\ r !! "path" = Some k) /\
  (forall r0 p, r0 ∈ rows -> r0 !! "path" = Some p ->
     str_endswith p ".mp3" = false -> is_Some (md !! (p ++ ".mp3"))).
Proof.
  intros Hb. split.
  - intros k r Hk.
    destruct (build_metadata_lookup _ _ _ _ Hb Hk) as (r0 & _ & Hr0 & Hpath).
    destruct (process_row_path _ _ Hr0) as (p & _ & Hp). rewrite Hp in Hpath.
    injection Hpath as <-. split; [apply mp3_path_endswith | done].
  - intros r0 p Hin Hp Hext.
    apply list_elem_of_split in Hin as (rs1 & rs2 & ->).
    unfold build_metadata in Hb. rewrite build_metadata_from_app in Hb.
    destruct (build_metadata_from ∅ rs1) as [m1|e]; [|discriminate].
    simpl in Hb.
    destruct (process_row r0) as [r'|e] eqn:Hr'; [|discriminate].
    destruct (process_row_path _ _ Hr') as (p' & Hp' & Hpath).
    rewrite Hp in Hp'. injection Hp' as <-. rewrite Hpath in Hb.
    apply (build_metadata_from_keeps _ _ _ _ Hb).
    unfold mp3_path. rewrite Hext. by rewrite lookup_insert_eq.
Qed.

Lemma metadata_keys_end_with_mp3_witness :
  is_Some (md_clip1 !! ("clip1" ++ ".mp3")).
Proof.
  refine (proj2 (metadata_keys_end_with_mp3 [row_clip1] md_clip1 _) row_clip1 "clip1" _ _ _).
  - vm_compute. reflexivity.
  - left.
  - vm_compute. reflexivity.
  - vm_compute. reflexivity.
Defined.

(** C2: an archive entry whose base filename is not a key of the metadata
    table contributes nothing: the run with the entry is the run without
    it (same records, same exception or none), so no record is emitted for
    it, no error is raised for it, and the loop goes on with the next
    entry. *)
Theorem unmatched_entry_skipped (pre : option (list string))
    (as1 as2 : list (list (string * list byte))) (es1 es2 : list (string * list byte))
    (p : string) (c : list byte) (rows : list row) (md : gmap string row) :
  build_metadata rows = Ok md ->
  md !! os_path_split_tail p = None ->
  generate_examples pre (as1 ++ (es1 ++ (p, c) :: es2) :: as2)%list rows =
  generate_examples pre (as1 ++ (es1 ++ es2) :: as2)%list rows.
Proof.
  intros Hb Hp. unfold generate_examples. rewrite Hb.
  apply gen_archives_congr. by apply gen_entries_skip.
Qed.

Lemma unmatched_entry_skipped_witness :
  generate_examples None [[("en_train_0/clip1.mp3", mp3_bytes); ("en_train_0/other.mp3", [])]]
    [row_clip1] =
  generate_examples None [[("en_train_0/clip1.mp3", mp3_bytes)]] [row_clip1].
Proof.
  exact (unmatched_entry_skipped None [] [] [("en_train_0/clip1.mp3", mp3_bytes)] []
           "en_train_0/other.mp3" [] [row_clip1] md_clip1
           ltac:(vm_compute; reflexivity) ltac:(vm_compute; reflexivity)).
Defined.

(** C3 (as stated, refuted): the entry [en_train_0/clip1.mp3] matches the
    row [clip1], and the emitted key is the entry's full path, which is not
    a key of the metadata table (the table is keyed by base filename). *)
Lemma emitted_key_not_a_metadata_key :
  map fst (yielded (generate_examples None [[("en_train_0/clip1.mp3", mp3_bytes)]] [row_clip1]))
    = ["en_train_0/clip1.mp3"] /\
  build_metadata [row_clip1] = Ok md_clip1 /\
  md_clip1 !! "en_train_0/clip1.mp3" = None.
Proof. vm_compute. repeat split. Qed.

(** C3 (amended): every emitted key is the resolved path of an entry of
    archive [j] whose base filename is a key of the metadata table, and its
    base filename is that entry's base filename. *)
Theorem emitted_keys_from_matching_entries (pre : option (list string))
    (archs : list (list (string * list byte))) (rows : list row) (k : string) (rec : record) :
  (k, rec) ∈ yielded (generate_examples pre archs rows) ->
  exists md, build_metadata rows = Ok md /\
  exists j a p c, archs !! j = Some a /\ (p, c) ∈ a /\
    is_Some (md !! os_path_split_tail p) /\
    resolve_path pre j p = Ok k /\
    os_path_split_tail k = os_path_split_tail p.
Proof.
  intros Hin.
  destruct (generate_examples_yielded _ _ _ _ _ Hin)
    as (md & Hb & j & a & p & c & r & Ha & Hpc & Hr & Hres & _).
  exists md. split; [done |]. exists j, a, p, c.
  split; [done |]. split; [done |]. split; [by rewrite Hr |].
  split; [done |]. exact (resolve_path_tail _ _ _ _ Hres).
Qed.

Lemma emitted_keys_from_matching_entries_witness :
  exists md, build_metadata [row_clip1] = Ok md /\
  exists j a p c, [[("en_train_0/clip1.mp3", mp3_bytes)]] !! j = Some a /\ (p, c) ∈ a /\
    is_Some (md !! os_path_split_tail p) /\
    resolve_path (Some ["/ex"]) j p = Ok "/ex/en_train_0/clip1.mp3" /\
    os_path_split_tail "/ex/en_train_0/clip1.mp3" = os_path_split_tail p.
Proof.
  apply (emitted_keys_from_matching_entries (Some ["/ex"])
           [[("en_train_0/clip1.mp3", mp3_bytes)]] [row_clip1] "/ex/en_train_0/clip1.mp3"
           (make_record (match md_clip1 !! "clip1.mp3" with Some r => r | None => ∅ end)
              "/ex/en_train_0/clip1.mp3" mp3_bytes)).
  vm_compute. left.
Defined.

(** C4: a row carrying the legacy [accents] column is stored with that
    value under [accent], and no row stored in the table has [accents]. *)
Theorem legacy_accents_migrated (rows : list row) (md : gmap string row) :
  build_metadata rows = Ok md ->
  forall k r, md !! k = Some r ->
    r !! "accents" = None /\
    exists r0, r0 ∈ rows /\ process_row r0 = Ok r /\
      (forall a, r0 !! "accents" = Some a -> r !! "accent" = Some a).
Proof.
  intros Hb k r Hk.
  destruct (build_metadata_lookup _ _ _ _ Hb Hk) as (r0 & Hin & Hr0 & _).
  split; [exact (process_row_accents _ _ Hr0) |].
  exists r0. split; [done |]. split; [done |].
  intros a Ha. exact (process_row_accent _ _ _ Hr0 Ha).
Qed.

Lemma legacy_accents_migrated_witness :
  exists r, md_clip1 !! "clip1.mp3" = Some r /\ r !! "accents" = None /\
    exists r0, r0 ∈ [row_clip1] /\ process_row r0 = Ok r /\
      (forall a, r0 !! "accents" = Some a -> r !! "accent" = Some a).
Proof.
  eexists. split; [vm_compute; reflexivity |].
  apply (legacy_accents_migrated [row_clip1] md_clip1 ltac:(vm_compute; reflexivity)
           "clip1.mp3").
  vm_compute. reflexivity.
Defined.

(** C5 (as stated, refuted): [row_clip1] has neither an [audio] nor an
    [accent] column, both declared in the schema, yet its record holds the
    audio dict under [audio] and the migrated [accents] value under
    [accent], not [""]. *)
Lemma schema_fields_absent_not_empty :
  "audio" ∈ data_fields /\ row_clip1 !! "audio" = None /\
  "accent" ∈ data_fields /\ row_clip1 !! "accent" = None /\
  exists k rec,
    yielded (generate_examples None [[("en_train_0/clip1.mp3", mp3_bytes)]] [row_clip1])
      = [(k, rec)] /\
    rec !! "audio" = Some (VAudio "en_train_0/clip1.mp3" mp3_bytes) /\
    rec !! "accent" = Some (VStr "us").
Proof.
  split; [apply (bool_decide_eq_true _); vm_compute; reflexivity |].
  split; [vm_compute; reflexivity |].
  split; [exact accent_data_field |].
  split; [vm_compute; reflexivity |].
  do 2 eexists. split; [vm_compute; reflexivity |].
  split; vm_compute; reflexivity.
Qed.

(** C5 (amended): the record emitted for an entry is built from the row
    [r] stored in the table under the entry's base filename, itself the
    processed form of a transcript row [r0]: [path] is the resolved path,
    [audio] is the [{path, bytes}] value of the entry, [accent] holds the
    [accents] value when [r0] has that legacy column, and every other
    schema field that [r0] lacks is [""]. *)
Theorem missing_schema_fields_empty (pre : option (list string))
    (archs : list (list (string * list byte))) (rows : list row) (k : string) (rec : record) :
  (k, rec) ∈ yielded (generate_examples pre archs rows) ->
  exists md j a p c r r0,
    build_metadata rows = Ok md /\ archs !! j = Some a /\ (p, c) ∈ a /\
    md !! os_path_split_tail p = Some r /\ r0 ∈ rows /\ process_row r0 = Ok r /\
    resolve_path pre j p = Ok k /\ rec = make_record r k c /\
    rec !! "path" = Some (VStr k) /\
    rec !! "audio" = Some (VAudio k c) /\
    (forall acc, r0 !! "accents" = Some acc -> rec !! "accent" = Some (VStr acc)) /\
    (forall f, f ∈ data_fields -> f <> "audio" -> f <> "path" ->
       r0 !! f = None -> (f = "accent" -> r0 !! "accents" = None) ->
       rec !! f = Some (VStr "")).
Proof.
  intros Hin.
  destruct (generate_examples_yielded _ _ _ _ _ Hin)
    as (md & Hb & j & a & p & c & r & Ha & Hpc & Hr & Hres & ->).
  destruct (build_metadata_lookup _ _ _ _ Hb Hr) as (r0 & Hr0in & Hr0 & _).
  exists md, j, a, p, c, r, r0.
  do 8 (split; [done |]).
  split; [apply make_record_path |].
  split; [apply make_record_audio |].
  split.
  - intros acc Hacc. rewrite make_record_other by done.
    by rewrite (process_row_accent _ _ _ Hr0 Hacc).
  - intros f Hf Haudio Hpathf Hnone Hacc.
    rewrite make_record_other by done.
    destruct (decide (f = "accent")) as [->|Hne].
    + by rewrite (process_row_accent_fill _ _ Hr0 (Hacc eq_refl) Hnone).
    + assert (f <> "accents") by (intros ->; exact (accents_not_data_field Hf)).
      rewrite (process_row_lookup_other _ _ _ Hr0) by done.
      rewrite Hnone. by rewrite decide_True by done.
Qed.

Lemma missing_schema_fields_empty_witness :
  let rec := make_record (match md_clip1 !! "clip1.mp3" with Some r => r | None => ∅ end)
               "en_train_0/clip1.mp3" mp3_bytes in
  exists md j a p c r r0,
    build_metadata [row_clip1] = Ok md /\
    [[("en_train_0/clip1.mp3", mp3_bytes)]] !! j = Some a /\ (p, c) ∈ a /\
    md !! os_path_split_tail p = Some r /\ r0 ∈ [row_clip1] /\ process_row r0 = Ok r /\
    resolve_path None j p = Ok "en_train_0/clip1.mp3" /\
    rec = make_record r "en_train_0/clip1.mp3" c /\
    rec !! "path" = Some (VStr "en_train_0/clip1.mp3") /\
    rec !! "audio" = Some (VAudio "en_train_0/clip1.mp3" c) /\
    (forall acc, r0 !! "accents" = Some acc -> rec !! "accent" = Some (VStr acc)) /\
    (forall f, f ∈ data_fields -> f <> "audio" -> f <> "path" ->
       r0 !! f = None -> (f = "accent" -> r0 !! "accents" = None) ->
       rec !! f = Some (VStr "")).
Proof.
  intros rec.
  apply (missing_schema_fields_empty None [[("en_train_0/clip1.mp3", mp3_bytes)]]
           [row_clip1] "en_train_0/clip1.mp3" rec).
  vm_compute. left.
Defined.

(** C6: when several rows are filed under the same key, the table holds
    the last of them, and building the table raises nothing as long as
    every row has a [path] column. *)
Theorem duplicate_key_last_row_wins (rows_before rows_after : list row) (r0 r' : row) (k : string) :
  (forall r, r ∈ (rows_before ++ r0 :: rows_after)%list -> is_Some (r !! "path")) ->
  process_row r0 = Ok r' -> r' !! "path" = Some k ->
  (forall r r'', r ∈ rows_after -> process_row r = Ok r'' -> r'' !! "path" <> Some k) ->
  exists md, build_metadata (rows_before ++ r0 :: rows_after)%list = Ok md /\
    md !! k = Some r'.
Proof.
  intros Hall Hr0 Hk Hlater.
  destruct (build_metadata_from_ok ∅ _ Hall) as [md Hb].
  exists md. split; [exact Hb |].
  unfold build_metadata in Hb. rewrite build_metadata_from_app in Hb.
  destruct (build_metadata_from ∅ rows_before) as [m1|e]; [|discriminate].
  simpl in Hb. rewrite Hr0, Hk in Hb.
  rewrite (build_metadata_from_other _ _ _ _ Hb Hlater).
  apply lookup_insert_eq.
Qed.

Lemma duplicate_key_last_row_wins_witness :
  exists md, build_metadata ([row_clip1] ++ row_clip1_again :: [])%list = Ok md /\
    md !! "clip1.mp3" =
    Some (fill_missing (migrate_accents (<["path" := "clip1.mp3"]> row_clip1_again))).
Proof.
  apply (duplicate_key_last_row_wins [row_clip1] [] row_clip1_again).
  - intros r Hr. apply elem_of_cons in Hr as [->|Hr];
      [|apply elem_of_cons in Hr as [->|Hr]; [|set_solver]];
      vm_compute; eexists; reflexivity.
  - vm_compute. reflexivity.
  - vm_compute. reflexivity.
  - intros r r'' Hr. set_solver.
Defined.

(** C7: an entry whose base filename has a row is emitted under its
    resolved path: the raw entry path when no prefix list is supplied (or
    it is empty), and the entry path joined to the archive's extraction
    directory otherwise.  The record is the row's fields, with the entry's
    bytes under [audio] and the resolved path under [path]; the run then
    goes on with the next entry. *)
Theorem matching_entry_emitted (md : gmap string row) (pre : option (list string)) (i : nat)
    (p : string) (c : list byte) (es : list (string * list byte)) (r : row) (k : string) :
  md !! os_path_split_tail p = Some r ->
  (py_truthy pre = false /\ k = p) \/
  (exists l d, pre = Some l /\ l <> [] /\ l !! i = Some d /\ k = os_path_join d p) ->
  exists rec,
    gen_entries md pre i ((p, c) :: es) =
      mk_trace ((k, rec) :: yielded (gen_entries md pre i es))
               (raised (gen_entries md pre i es)) /\
    rec !! "audio" = Some (VAudio k c) /\
    rec !! "path" = Some (VStr k) /\
    (forall f, f <> "path" -> f <> "audio" -> rec !! f = VStr <$> r !! f).
Proof.
  intros Hr Hk.
  assert (Hres : resolve_path pre i p = Ok k).
  { destruct Hk as [[Ht ->] | (l & d & -> & Hne & Hd & ->)].
    - unfold resolve_path. destruct pre as [[|d0 l]|]; done.
    - unfold resolve_path. destruct l as [|d0 l]; [done |]. by rewrite Hd. }
  exists (make_record r k c). simpl. rewrite Hr, Hres.
  split; [done |].
  split; [apply make_record_audio |].
  split; [apply make_record_path |].
  intros f H1 H2. by apply make_record_other.
Qed.

Lemma matching_entry_emitted_witness :
  exists rec,
    gen_entries md_clip1 (Some ["/ex"]) 0 [("en_train_0/clip1.mp3", mp3_bytes)] =
      mk_trace [("/ex/en_train_0/clip1.mp3", rec)] None /\
    rec !! "audio" = Some (VAudio "/ex/en_train_0/clip1.mp3" mp3_bytes) /\
    rec !! "path" = Some (VStr "/ex/en_train_0/clip1.mp3") /\
    (forall f, f <> "path" -> f <> "audio" ->
       rec !! f = VStr <$> (match md_clip1 !! "clip1.mp3" with Some r => r | None => ∅ end) !! f).
Proof.
  apply (matching_entry_emitted md_clip1 (Some ["/ex"]) 0 "en_train_0/clip1.mp3" mp3_bytes []).
  - vm_compute. reflexivity.
  - right. exists ["/ex"], "/ex". split; [done |]. split; [done |].
    split; [done |]. vm_compute. reflexivity.
Defined.

(** C8: a run of the generator is determined by its inputs: any two runs
    over the same transcript rows, archive entries and prefix list emit the
    same pairs in the same order and end the same way, namely as
    [generate_examples] computes. *)
Theorem runs_are_deterministic (pre : option (list string))
    (archs : list (list (string * list byte))) (rows : list row) (t1 t2 : trace) :
  Run.Generate pre archs rows t1 -> Run.Generate pre archs rows t2 ->
  t1 = t2 /\ t1 = generate_examples pre archs rows.
Proof.
  intros H1 H2. split.
  - exact (run_generate_det _ _ _ _ _ H1 H2).
  - exact (run_generate_det _ _ _ _ _ H1 (run_generate_examples pre archs rows)).
Qed.

Lemma runs_are_deterministic_witness :
  let archs := [[("en_train_0/clip1.mp3", mp3_bytes)]; [("en_train_1/clip1.mp3", [])]] in
  let rows := [row_clip1; row_clip1_again] in
  let t := generate_examples None archs rows in
  t = t /\ t = generate_examples None archs rows.
Proof.
  intros archs rows t.
  exact (runs_are_deterministic None archs rows t t
           (run_generate_examples None archs rows) (run_generate_examples None archs rows)).
Defined.

(** C9: in every emitted pair, the record's [path], the path of its
    [audio] dict and the key are the same string. *)
Theorem emitted_key_path_audio_agree (pre : option (list string))
    (archs : list (list (string * list byte))) (rows : list row) (k : string) (rec : record) :
  (k, rec) ∈ yielded (generate_examples pre archs rows) ->
  rec !! "path" = Some (VStr k) /\ exists c, rec !! "audio" = Some (VAudio k c).
Proof.
  intros Hin.
  destruct (generate_examples_yielded _ _ _ _ _ Hin)
    as (md & _ & j & a & p & c & r & _ & _ & _ & _ & ->).
  split; [apply make_record_path |]. exists c. apply make_record_audio.
Qed.

Lemma emitted_key_path_audio_agree_witness :
  let rec := make_record (match md_clip1 !! "clip1.mp3" with Some r => r | None => ∅ end)
               "/ex/en_train_0/clip1.mp3" mp3_bytes in
  rec !! "path" = Some (VStr "/ex/en_train_0/clip1.mp3") /\
  exists c, rec !! "audio" = Some (VAudio "/ex/en_train_0/clip1.mp3" c).
Proof.
  intros rec.
  apply (emitted_key_path_audio_agree (Some ["/ex"]) [[("en_train_0/clip1.mp3", mp3_bytes)]]
           [row_clip1]).
  vm_compute. left.
Defined.

(** C10: the prefix list is used all or nothing: with a falsy list ([None]
    or [[]]) every entry keeps its raw path, with a non-empty list the entry
    of archive [i] is joined to element [i]; and when a non-empty list has
    at least one element per archive, the run raises nothing (given a
    transcript whose rows all have a [path]). *)
Theorem extraction_prefix_all_or_nothing (pre : option (list string))
    (archs : list (list (string * list byte))) (rows : list row) (md : gmap string row) :
  build_metadata rows = Ok md ->
  (forall i p, py_truthy pre = false -> resolve_path pre i p = Ok p) /\
  (forall l i p d, pre = Some l -> l <> [] -> l !! i = Some d ->
     resolve_path pre i p = Ok (os_path_join d p)) /\
  ((forall l, pre = Some l -> l <> [] -> length archs <= length l) ->
     raised (generate_examples pre archs rows) = None).
Proof.
  intros Hb. split; [|split].
  - intros i p Ht. unfold resolve_path. destruct pre as [[|d0 l]|]; done.
  - intros l i p d -> Hne Hd. unfold resolve_path.
    destruct l as [|d0 l]; [done |]. by rewrite Hd.
  - intros Hlen. unfold generate_examples. rewrite Hb.
    apply gen_archives_no_error. intros l Hl Hne. simpl. exact (Hlen l Hl Hne).
Qed.

Lemma extraction_prefix_all_or_nothing_witness :
  raised (generate_examples (Some ["/ex0"; "/ex1"])
            [[("en_train_0/clip1.mp3", mp3_bytes)]; [("clip1.mp3", [])]] [row_clip1]) = None.
Proof.
  apply (proj2 (proj2 (extraction_prefix_all_or_nothing (Some ["/ex0"; "/ex1"])
           [[("en_train_0/clip1.mp3", mp3_bytes)]; [("clip1.mp3", [])]] [row_clip1] md_clip1
           ltac:(vm_compute; reflexivity)))).
  intros l Hl _. injection Hl as <-. simpl. lia.
Defined.

(** * Further properties of the loading script *)

(** X1: the run ends with [KeyError "path"] before yielding anything
    exactly when some transcript row has no [path] column, whatever the
    archives and the prefix list. *)
Theorem missing_path_aborts_run (pre : option (list string))
    (archs : list (list (string * list byte))) (rows : list row) :
  generate_examples pre archs rows = mk_trace [] (Some (KeyError "path")) <->
  exists r, r ∈ rows /\ r !! "path" = None.
Proof.
  unfold generate_examples. destruct (build_metadata rows) as [md|e] eqn:Hb.
  - split.
    + intros H. exfalso.
      assert (Hr : raised (gen_archives md pre 0 archs) = Some (KeyError "path"))
        by (rewrite H; done).
      apply gen_archives_raised in Hr as [Hr _]. discriminate Hr.
    + intros (r & Hr & Hn).
      pose proof (build_metadata_from_paths _ _ _ Hb r Hr) as Hp.
      rewrite Hn in Hp. by destruct Hp.
  - destruct (build_metadata_from_err _ _ _ Hb) as [-> Hrow].
    split; [intros _; exact Hrow | done].
Qed.

(** X2: the keys of the metadata table are exactly the [path] values of
    the transcript rows, each with [".mp3"] appended when it lacks it. *)
Theorem metadata_keys_are_row_paths (rows : list row) (md : gmap string row) :
  build_metadata rows = Ok md ->
  forall k, is_Some (md !! k) <->
    exists r0 p, r0 ∈ rows /\ r0 !! "path" = Some p /\ k = mp3_path p.
Proof.
  intros Hb k. split.
  - intros [r Hk].
    destruct (build_metadata_lookup _ _ _ _ Hb Hk) as (r0 & Hin & Hr0 & Hpath).
    destruct (process_row_path _ _ Hr0) as (p & Hp & Hp'). rewrite Hpath in Hp'.
    injection Hp' as ->. eauto.
  - intros (r0 & p & Hin & Hp & ->).
    apply list_elem_of_split in Hin as (rs1 & rs2 & ->).
    unfold build_metadata in Hb. rewrite build_metadata_from_app in Hb.
    destruct (build_metadata_from ∅ rs1) as [m1|e]; [|discriminate].
    simpl in Hb.
    destruct (process_row r0) as [r'|e] eqn:Hr'; [|discriminate].
    destruct (process_row_path _ _ Hr') as (p' & Hp' & Hpath).
    rewrite Hp in Hp'. injection Hp' as <-. rewrite Hpath in Hb.
    apply (build_metadata_from_keeps _ _ _ _ Hb). by rewrite lookup_insert_eq.
Qed.

Lemma metadata_keys_are_row_paths_witness :
  is_Some (md_clip1 !! "clip1.mp3") <->
  exists r0 p, r0 ∈ [row_clip1] /\ r0 !! "path" = Some p /\ "clip1.mp3" = mp3_path p.
Proof.
  exact (metadata_keys_are_row_paths [row_clip1] md_clip1
           ltac:(vm_compute; reflexivity) "clip1.mp3").
Defined.

(** X3: the processing of a row is idempotent: a row as it is stored in
    the table goes through the processing unchanged. *)
Theorem process_row_idempotent (r r' : row) :
  process_row r = Ok r' -> process_row r' = Ok r'.
Proof.
  intros Hr. destruct (process_row_path _ _ Hr) as (p & Hp & Hp').
  apply process_row_spec. exists (mp3_path p). split; [done |].
  assert (Hfix : forall q, str_endswith q ".mp3" = true -> mp3_path q = q)
    by (intros q Hq; unfold mp3_path; by rewrite Hq).
  rewrite (Hfix _ (mp3_path_endswith p)), insert_id by done.
  assert (Hm : migrate_accents r' = r').
  { unfold migrate_accents. by rewrite (process_row_accents _ _ Hr). }
  rewrite Hm. apply map_eq. intros k. rewrite fill_missing_lookup.
  destruct (r' !! k) eqn:Hk; [done |].
  case_decide as Hf; [|done].
  destruct (process_row_schema _ _ _ Hr Hf) as [v Hv]. congruence.
Qed.

Lemma process_row_idempotent_witness :
  process_row (match process_row row_clip1 with Ok r => r | Err _ => ∅ end) =
  Ok (match process_row row_clip1 with Ok r => r | Err _ => ∅ end).
Proof.
  apply (process_row_idempotent row_clip1). vm_compute. reflexivity.
Defined.

(** X4: every emitted record has a value for every field of the schema,
    and none for the legacy [accents] column. *)
Theorem emitted_records_schema_complete (pre : option (list string))
    (archs : list (list (string * list byte))) (rows : list row) (k : string) (rec : record) :
  (k, rec) ∈ yielded (generate_examples pre archs rows) ->
  (forall f, f ∈ data_fields -> is_Some (rec !! f)) /\ rec !! "accents" = None.
Proof.
  intros Hin.
  destruct (generate_examples_yielded _ _ _ _ _ Hin)
    as (md & Hb & j & a & p & c & r & Ha & Hpc & Hr & Hres & ->).
  destruct (build_metadata_lookup _ _ _ _ Hb Hr) as (r0 & _ & Hr0 & _).
  split.
  - intros f Hf.
    destruct (decide (f = "path")) as [->|H1]; [by rewrite make_record_path |].
    destruct (decide (f = "audio")) as [->|H2]; [by rewrite make_record_audio |].
    rewrite make_record_other by done.
    destruct (process_row_schema _ _ _ Hr0 Hf) as [v ->]. eauto.
  - rewrite make_record_other by done. by rewrite (process_row_accents _ _ Hr0).
Qed.

Lemma emitted_records_schema_complete_witness :
  let rec := make_record (match md_clip1 !! "clip1.mp3" with Some r => r | None => ∅ end)
               "en_train_0/clip1.mp3" mp3_bytes in
  (forall f, f ∈ data_fields -> is_Some (rec !! f)) /\ rec !! "accents" = None.
Proof.
  intros rec.
  apply (emitted_records_schema_complete None [[("en_train_0/clip1.mp3", mp3_bytes)]]
           [row_clip1] "en_train_0/clip1.mp3").
  vm_compute. left.
Defined.

(** X5: a column of the transcript row other than [path], [audio],
    [accent] and [accents] (declared in the schema or not) is copied into
    the emitted record unchanged. *)
Theorem emitted_records_copy_row (pre : option (list string))
    (archs : list (list (string * list byte))) (rows : list row) (k : string) (rec : record) :
  (k, rec) ∈ yielded (generate_examples pre archs rows) ->
  exists r0 p, r0 ∈ rows /\ r0 !! "path" = Some p /\ mp3_path p = os_path_split_tail k /\
    forall f v, f <> "path" -> f <> "audio" -> f <> "accent" -> f <> "accents" ->
      r0 !! f = Some v -> rec !! f = Some (VStr v).
Proof.
  intros Hin.
  destruct (generate_examples_yielded _ _ _ _ _ Hin)
    as (md & Hb & j & a & p & c & r & Ha & Hpc & Hr & Hres & ->).
  destruct (build_metadata_lookup _ _ _ _ Hb Hr) as (r0 & Hr0in & Hr0 & Hpath).
  destruct (process_row_path _ _ Hr0) as (p0 & Hp0 & Hpath0).
  exists r0, p0. split; [done |]. split; [done |].
  split.
  - rewrite Hpath in Hpath0. injection Hpath0 as <-.
    symmetry. exact (resolve_path_tail _ _ _ _ Hres).
  - intros f v H1 H2 H3 H4 Hv.
    rewrite make_record_other by done.
    by rewrite (process_row_lookup_other _ _ _ Hr0), Hv by done.
Qed.

Lemma emitted_records_copy_row_witness :
  exists r0 p, r0 ∈ [row_clip1] /\ r0 !! "path" = Some p /\
    mp3_path p = os_path_split_tail "/ex/en_train_0/clip1.mp3" /\
    forall f v, f <> "path" -> f <> "audio" -> f <> "accent" -> f <> "accents" ->
      r0 !! f = Some v ->
      (make_record (match md_clip1 !! "clip1.mp3" with Some r => r | None => ∅ end)
         "/ex/en_train_0/clip1.mp3" mp3_bytes) !! f = Some (VStr v).
Proof.
  apply (emitted_records_copy_row (Some ["/ex"]) [[("en_train_0/clip1.mp3", mp3_bytes)]]
           [row_clip1]).
  vm_compute. left.
Defined.

(** X6: when the run raises nothing, the file names of the emitted keys
    are, in order, the file names of the archive entries that have a row in
    the table, taken archive by archive; so there is one record per
    matching entry. *)
Theorem emitted_filenames_in_archive_order (pre : option (list string))
    (archs : list (list (string * list byte))) (rows : list row) (md : gmap string row) :
  build_metadata rows = Ok md ->
  raised (generate_examples pre archs rows) = None ->
  map (fun kv => os_path_split_tail kv.1) (yielded (generate_examples pre archs rows)) =
  map (fun e => os_path_split_tail e.1)
      (filter (fun e : string * list byte => is_Some (md !! os_path_split_tail e.1))
              (concat archs)) /\
  length (yielded (generate_examples pre archs rows)) =
  length (filter (fun e : string * list byte => is_Some (md !! os_path_split_tail e.1))
                 (concat archs)).
Proof.
  intros Hb Hn. unfold generate_examples in *. rewrite Hb in *.
  pose proof (gen_archives_basenames _ _ _ _ Hn) as H.
  split; [exact H |].
  apply (f_equal length) in H. by rewrite !length_map in H.
Qed.

Lemma emitted_filenames_in_archive_order_witness :
  let archs := [[("en_train_0/clip1.mp3", mp3_bytes); ("en_train_0/other.mp3", [])];
                [("en_train_1/clip1.mp3", [])]] in
  length (yielded (generate_examples (Some ["/ex0"; "/ex1"]) archs [row_clip1])) =
  length (filter (fun e : string * list byte => is_Some (md_clip1 !! os_path_split_tail e.1))
                 (concat archs)).
Proof.
  intros archs.
  exact (proj2 (emitted_filenames_in_archive_order (Some ["/ex0"; "/ex1"]) archs [row_clip1]
           md_clip1 ltac:(vm_compute; reflexivity) ltac:(vm_compute; reflexivity))).
Defined.

(** X7: with a falsy prefix list ([None] or [[]]) the run raises nothing
    once the table is built, and its keys are the raw paths of the
    matching entries, in archive order. *)
Theorem falsy_prefix_raw_paths (pre : option (list string))
    (archs : list (list (string * list byte))) (rows : list row) (md : gmap string row) :
  py_truthy pre = false -> build_metadata rows = Ok md ->
  raised (generate_examples pre archs rows) = None /\
  map fst (yielded (generate_examples pre archs rows)) =
  map fst (filter (fun e : string * list byte => is_Some (md !! os_path_split_tail e.1))
                  (concat archs)).
Proof.
  intros Ht Hb. unfold generate_examples. rewrite Hb. by apply gen_archives_falsy.
Qed.

Lemma falsy_prefix_raw_paths_witness :
  let archs := [[("en_train_0/clip1.mp3", mp3_bytes); ("en_train_0/other.mp3", [])];
                [("en_train_1/clip1.mp3", [])]] in
  raised (generate_examples (Some []) archs [row_clip1]) = None /\
  map fst (yielded (generate_examples (Some []) archs [row_clip1])) =
  map fst (filter (fun e : string * list byte => is_Some (md_clip1 !! os_path_split_tail e.1))
                  (concat archs)).
Proof.
  intros archs.
  exact (falsy_prefix_raw_paths (Some []) archs [row_clip1] md_clip1
           eq_refl ltac:(vm_compute; reflexivity)).
Defined.

(** X8: once the table is built, the only exception the run can raise is
    [IndexError], and it raises it exactly when the prefix list is
    non-empty and some archive [j] with [j >= len(local_extracted_archive_paths)]
    holds an entry whose file name has a row. *)
Theorem index_error_exact (pre : option (list string))
    (archs : list (list (string * list byte))) (rows : list row) (md : gmap string row)
    (e : error) :
  build_metadata rows = Ok md ->
  raised (generate_examples pre archs rows) = Some e <->
  e = IndexError /\ exists l, pre = Some l /\ l <> [] /\
    exists j a p c, archs !! j = Some a /\ (p, c) ∈ a /\
      is_Some (md !! os_path_split_tail p) /\ length l <= j.
Proof.
  intros Hb. unfold generate_examples. rewrite Hb. apply gen_archives_raised.
Qed.

Lemma index_error_exact_witness :
  raised (generate_examples (Some ["/ex"])
            [[("en_train_0/clip1.mp3", mp3_bytes)]; [("clip1.mp3", [])]] [row_clip1])
  = Some IndexError.
Proof.
  apply (proj2 (index_error_exact (Some ["/ex"])
           [[("en_train_0/clip1.mp3", mp3_bytes)]; [("clip1.mp3", [])]] [row_clip1] md_clip1
           IndexError ltac:(vm_compute; reflexivity))).
  split; [reflexivity |]. exists ["/ex"]. split; [reflexivity |]. split; [discriminate |].
  exists 1, [("clip1.mp3", [])], "clip1.mp3", [].
  split; [reflexivity |]. split; [set_solver |].
  split; [eexists; vm_compute; reflexivity | simpl; lia].
Defined.

(** X9: an empty transcript yields nothing and raises nothing, whatever
    the archives hold and however short the prefix list is. *)
Theorem empty_transcript_yields_nothing (pre : option (list string))
    (archs : list (list (string * list byte))) :
  generate_examples pre archs [] = mk_trace [] None.
Proof.
  unfold generate_examples, build_metadata. simpl. apply gen_archives_empty.
Qed.

(** X10: planning the splits succeeds exactly when [n_shards] has the
    configured language and, for it, all six splits; otherwise it raises
    [KeyError] on the language or on a missing split. *)
Theorem split_plan_key_errors (lang : string) (n_shards : gmap string (gmap string Z))
    (dl : dl_manager) :
  ((exists gs, split_generators lang n_shards dl = Ok gs) <->
   exists shards, n_shards !! lang = Some shards /\
     forall s, s ∈ splits -> is_Some (shards !! s)) /\
  (forall e, split_generators lang n_shards dl = Err e ->
     (n_shards !! lang = None /\ e = KeyError lang) \/
     exists shards s, n_shards !! lang = Some shards /\ s ∈ splits /\
       shards !! s = None /\ e = KeyError s).
Proof.
  unfold split_generators, audio_urls_of. split.
  - split.
    + intros [gs H]. destruct (n_shards !! lang) as [shards|]; [|discriminate].
      exists shards. split; [done |]. intros s Hs.
      destruct (audio_urls_from lang shards ∅ splits) as [m|e] eqn:Hm; [|discriminate].
      destruct (audio_urls_from_lookup _ _ _ _ _ _ Hm Hs) as (n & Hn & _). by rewrite Hn.
    + intros (shards & Hl & Hall). rewrite Hl.
      destruct (audio_urls_from_ok lang shards ∅ splits Hall) as [m ->]. eauto.
  - intros e H. destruct (n_shards !! lang) as [shards|].
    + destruct (audio_urls_from lang shards ∅ splits) as [m|e'] eqn:Hm; [discriminate |].
      injection H as <-. right.
      destruct (audio_urls_from_err _ _ _ _ _ Hm) as (s & ? & ? & ?).
      exists shards, s. done.
    + injection H as <-. by left.
Qed.

Lemma split_plan_key_errors_witness :
  exists gs, split_generators "en" n_shards_sample dl_sample = Ok gs.
Proof.
  apply (proj2 (proj1 (split_plan_key_errors "en" n_shards_sample dl_sample))).
  eexists. split; [vm_compute; reflexivity |].
  intros s Hs. vm_compute in Hs.
  repeat (apply elem_of_cons in Hs as [-> | Hs]; [eexists; vm_compute; reflexivity |]).
  by apply not_elem_of_nil in Hs.
Defined.

(** X12: in a successful plan, the generator of split [s] iterates one
    archive per shard index [0 .. n_shards[lang][s] - 1] (none when the
    count is not positive), each the downloaded file of that shard's URL,
    and reads the downloaded and extracted transcript of [s]. *)
Theorem split_plan_archives (lang : string) (n_shards : gmap string (gmap string Z))
    (dl : dl_manager) (gs : list split_generator) (k : nat) (s : string) :
  split_generators lang n_shards dl = Ok gs -> splits !! k = Some s ->
  exists shards n g, n_shards !! lang = Some shards /\ shards !! s = Some n /\
    gs !! k = Some g /\
    sg_archives g =
      map (fun i => dl_iter_archive dl (dl_download dl (audio_url lang s i)))
          (seq 0 (Z.to_nat n)) /\
    sg_meta_path g = dl_download_and_extract dl (transcript_url lang s).
Proof.
  intros H Hk.
  destruct (split_generators_at _ _ _ _ _ _ H Hk)
    as (shards & n & g & Hl & Hn & Hg & _ & Harch & _ & Hmeta).
  exists shards, n, g. done.
Qed.

Lemma split_plan_archives_witness :
  exists shards n g, n_shards_sample !! "en" = Some shards /\ shards !! "train" = Some n /\
    sample_plan !! 0 = Some g /\
    sg_archives g =
      map (fun i => dl_iter_archive dl_sample (dl_download dl_sample (audio_url "en" "train" i)))
          (seq 0 (Z.to_nat n)) /\
    sg_meta_path g = dl_download_and_extract dl_sample (transcript_url "en" "train").
Proof.
  exact (split_plan_archives "en" n_shards_sample dl_sample sample_plan 0 "train"
           ltac:(vm_compute; reflexivity) eq_refl).
Defined.

(** X13: in streaming mode every generator gets no prefix list; otherwise
    each gets a list with one extraction directory per archive, element
    [i] extracted from the same downloaded file that archive [i] iterates. *)
Theorem split_plan_extracted_dirs (lang : string) (n_shards : gmap string (gmap string Z))
    (dl : dl_manager) (gs : list split_generator) (g : split_generator) :
  split_generators lang n_shards dl = Ok gs -> g ∈ gs ->
  (dl_is_streaming dl = true -> sg_local_extracted_archive_paths g = None) /\
  (dl_is_streaming dl = false -> exists l, sg_local_extracted_archive_paths g = Some l /\
     length l = length (sg_archives g) /\
     forall i, i < length l -> exists f,
       l !! i = Some (dl_extract dl f) /\ sg_archives g !! i = Some (dl_iter_archive dl f)).
Proof.
  intros H Hg.
  destruct (split_generators_elem _ _ _ _ _ H Hg) as (k & s & Hk & Hgk).
  destruct (split_generators_at _ _ _ _ _ _ H Hk)
    as (shards & n & g' & _ & _ & Hg' & _ & Harch & Hloc & _).
  rewrite Hgk in Hg'. injection Hg' as <-.
  split.
  - intros Hs. by rewrite Hloc, Hs.
  - intros Hs. rewrite Hloc, Hs. eexists. split; [done |].
    rewrite Harch, !length_map. split; [done |].
    intros i Hi. rewrite length_seq in Hi.
    exists (dl_download dl (audio_url lang s i)).
    rewrite !lookup_map_list, lookup_seq_lt by done. done.
Qed.

Lemma split_plan_extracted_dirs_witness :
  exists l, sg_local_extracted_archive_paths sample_train = Some l /\
    length l = length (sg_archives sample_train).
Proof.
  destruct (proj2 (split_plan_extracted_dirs "en" n_shards_sample dl_sample sample_plan
                     sample_train ltac:(vm_compute; reflexivity) ltac:(vm_compute; left))
                  eq_refl) as (l & H1 & H2 & _).
  exists l. split; assumption.
Defined.

(** X14: a split generator of a successful plan never makes the run raise
    [IndexError], whatever its transcript: its prefix list, when present,
    has an element for every archive. *)
Theorem split_plan_no_index_error (lang : string) (n_shards : gmap string (gmap string Z))
    (dl : dl_manager) (gs : list split_generator) (g : split_generator) (rows : list row) :
  split_generators lang n_shards dl = Ok gs -> g ∈ gs ->
  raised (generate_examples (sg_local_extracted_archive_paths g) (sg_archives g) rows)
    <> Some IndexError.
Proof.
  intros H Hg.
  destruct (split_generators_elem _ _ _ _ _ H Hg) as (k & s & Hk & Hgk).
  destruct (split_generators_at _ _ _ _ _ _ H Hk)
    as (shards & n & g' & _ & _ & Hg' & _ & Harch & Hloc & _).
  rewrite Hgk in Hg'. injection Hg' as <-.
  unfold generate_examples. destruct (build_metadata rows) as [md|e] eqn:Hb.
  - rewrite gen_archives_no_error; [discriminate |].
    intros l Hl _. rewrite Hloc in Hl.
    destruct (dl_is_streaming dl); [discriminate |].
    injection Hl as <-. rewrite Harch, !length_map. simpl. lia.
  - destruct (build_metadata_from_err _ _ _ Hb) as [-> _]. discriminate.
Qed.

Lemma split_plan_no_index_error_witness :
  raised (generate_examples (sg_local_extracted_archive_paths sample_train)
            (sg_archives sample_train) [row_clip1; row_clip1_again]) <> Some IndexError.
Proof.
  exact (split_plan_no_index_error "en" n_shards_sample dl_sample sample_plan sample_train
           [row_clip1; row_clip1_again] ltac:(vm_compute; reflexivity) ltac:(vm_compute; left)).
Defined.

(** X15: the shard URLs of a split are pairwise distinct, so no archive is
    planned twice for the same split. *)
Theorem audio_urls_distinct (lang s : string) (n : nat) :
  NoDup (map (audio_url lang s) (seq 0 n)).
Proof.
  apply NoDup_map_inj; [apply audio_url_inj | apply NoDup_seq].
Qed.
